(** * A shallow embedding of the QOI decoder of [src/main.cpp]

    The decoder reads a byte stream chunk by chunk and fills a
    [width * height] grid of RGBA pixels.  Integers of the source are
    modelled as [Z] with their wrap-around written out, the pixel cache
    [memory] and the pixel buffer of [Image] as lists updated by index,
    and the three ways the loop body can end (fall through, [exit(-1)],
    a store outside the buffer) as an [outcome].  [swap_bytes] and [main]
    follow the decoder: the program is a function of its arguments, of
    the files it can open and of whether its output is a terminal, to the
    status it returns and the bytes it writes. *)

From Stdlib Require Import ZArith Lia.
From Stdlib.Strings Require Import Byte.
From Stdlib Require Import DecimalString.
From stdpp Require Import base numbers option list strings.

Local Open Scope Z_scope.

(** ** Fixed-width unsigned integers *)

(** Conversion of an [int] value to [uint8_t] and to [uint32_t]. *)
Definition u8 (x : Z) : Z := x mod 256.
Definition u32 (x : Z) : Z := x mod 2 ^ 32.

(** The numeric value of a byte of the input stream. *)
Definition byte_val (c : byte) : Z := Z.of_N (Byte.to_N c).

(** ** Data model (lines 12-54) *)

Record Pixel := mkPixel { r : Z; g : Z; b : Z; a : Z }.

Record QoiHeader := mkQoiHeader {
  magic : list byte;
  width : Z;
  height : Z;
  channels : Z;
  colorspace : Z
}.

Global Instance Pixel_inhabited : Inhabited Pixel := populate (mkPixel 0 0 0 0).

Global Instance Pixel_eq_dec : EqDecision Pixel.
Proof. solve_decision. Defined.

(** [class Image]: the pixel buffer [a] of [width * height] cells (the
    product is a [uint32_t] one) and the accessors [get] and [set], which
    address cell [row * width + col].  [new Pixel[n]] leaves the cells
    uninitialised: their content is the parameter [fresh].  A [set] outside
    the buffer is undefined behaviour in the source and [None] here. *)
Module Image.

Record t := mk { a : list Pixel; width : Z; height : Z }.

Definition new (width height : Z) (fresh : nat → Pixel) : t :=
  mk (fresh <$> seq 0 (Z.to_nat (u32 (width * height)))) width height.

Definition get_width (img : t) : Z := width img.

Definition get_height (img : t) : Z := height img.

Definition offset (img : t) (row col : Z) : nat :=
  Z.to_nat (u32 (row * width img + col)).

Definition get (img : t) (row col : Z) : option Pixel :=
  a img !! offset img row col.

Definition set (img : t) (row col : Z) (val : Pixel) : option t :=
  if decide (offset img row col < length (a img))%nat
  then Some (mk (<[offset img row col := val]> (a img)) (width img) (height img))
  else None.

End Image.

(** ** Pixel hash (lines 56-58) *)

(** The sum is computed in [int]; [%] is the truncating remainder. *)
Definition qoi_pix_hash (p : Pixel) : Z :=
  Z.rem (r p * 3 + g p * 5 + b p * 7 + a p * 11) 64.

(** ** The input stream *)

(** [in.read] of one byte into [dest]: the next byte of the stream goes to
    [dest]; at the end of the stream the read fails and [dest] keeps the
    value it had.  The source never tests the stream state. *)
Definition read (input : list byte) (dest : Z) : Z * list byte :=
  match input with
  | [] => (dest, [])
  | c :: rest => (byte_val c, rest)
  end.

(** ** Outcomes of the loop body *)

Inductive outcome (A : Type) : Type :=
  | Ok (x : A)
  | Exit (starting_byte j i : Z)   (* the diagnostic and [exit(-1)] of lines 137-139 *)
  | Undefined.                     (* a store outside the pixel buffer *)

Arguments Ok {A} x.
Arguments Exit {A} starting_byte j i.
Arguments Undefined {A}.

Global Instance outcome_ret : MRet outcome := @Ok.

Global Instance outcome_bind : MBind outcome := λ A B f m,
  match m with
  | Ok x => f x
  | Exit sb j i => Exit sb j i
  | Undefined => Undefined
  end.

Definition defined {A} (o : option A) : outcome A :=
  match o with
  | Some x => Ok x
  | None => Undefined
  end.

(** A [for] loop over the values [xs] of its counter, stopped by the first
    iteration that does not fall through. *)
Fixpoint for_each {A S : Type} (body : A → S → outcome S) (xs : list A) (st : S)
    : outcome S :=
  match xs with
  | [] => Ok st
  | x :: xs' => st' ← body x st; for_each body xs' st'
  end.

(** ** The chunk decoder (lines 60-146) *)

(** The variables of [do_decode_image] that live across iterations. *)
Record State := mkState {
  memory : list Pixel;
  last_pix : Pixel;
  run_length : Z;
  input : list byte;
  decoded : Image.t
}.

Inductive Chunk :=
  | QOI_OP_RGB
  | QOI_OP_RGBA
  | QOI_OP_INDEX
  | QOI_OP_DIFF
  | QOI_OP_LUMA
  | QOI_OP_RUN
  | UnknownChunk.

Global Instance Chunk_eq_dec : EqDecision Chunk.
Proof. solve_decision. Defined.

(** The conditions of the [if ... else if ...] chain of lines 83-136, in
    the order of the source. *)
Definition chunk_of (starting_byte : Z) : Chunk :=
  if starting_byte =? 254 then QOI_OP_RGB
  else if starting_byte =? 255 then QOI_OP_RGBA
  else if Z.land (Z.shiftr starting_byte 6) 3 =? 0 then QOI_OP_INDEX
  else if Z.land (Z.shiftr starting_byte 6) 3 =? 1 then QOI_OP_DIFF
  else if Z.land (Z.shiftr starting_byte 6) 3 =? 2 then QOI_OP_LUMA
  else if Z.land (Z.shiftr starting_byte 6) 3 =? 3 then QOI_OP_RUN
  else UnknownChunk.

Section Decoder.

(** [starting_byte] and [second_byte] are declared without an
    initialiser; when the read that should fill them fails they hold an
    indeterminate byte, given here for each grid position. *)
Variable uninit_starting_byte : Z → Z → byte.
Variable uninit_second_byte : Z → Z → byte.

(** The branches of lines 83-140: the pixel [res], the pixel cache, the
    run length and the stream after the chunk.  [memory] is indexed by
    the hash of an 8-bit pixel or by a 6-bit field, both within 0..63. *)
Definition decode_chunk (i j : Z) (st : State) (starting_byte : Z) (in1 : list byte)
    : outcome (Pixel * list Pixel * Z * list byte) :=
  let res := mkPixel 0 0 0 255 in
  match chunk_of starting_byte with
  | QOI_OP_RGB =>
      let '(res_r, in2) := read in1 (r res) in
      let '(res_g, in3) := read in2 (g res) in
      let '(res_b, in4) := read in3 (b res) in
      let res := mkPixel res_r res_g res_b (a (last_pix st)) in
      Ok (res, <[Z.to_nat (qoi_pix_hash res) := res]> (memory st), run_length st, in4)
  | QOI_OP_RGBA =>
      let '(res_r, in2) := read in1 (r res) in
      let '(res_g, in3) := read in2 (g res) in
      let '(res_b, in4) := read in3 (b res) in
      let '(res_a, in5) := read in4 (a res) in
      let res := mkPixel res_r res_g res_b res_a in
      Ok (res, <[Z.to_nat (qoi_pix_hash res) := res]> (memory st), run_length st, in5)
  | QOI_OP_INDEX =>
      let index := Z.land starting_byte 63 in
      let res := memory st !!! Z.to_nat index in
      Ok (res, memory st, run_length st, in1)
  | QOI_OP_DIFF =>
      let res :=
        mkPixel (u8 (r (last_pix st) + Z.land (Z.shiftr starting_byte 4) 3 - 2))
                (u8 (g (last_pix st) + Z.land (Z.shiftr starting_byte 2) 3 - 2))
                (u8 (b (last_pix st) + Z.land (Z.shiftr starting_byte 0) 3 - 2))
                (a (last_pix st)) in
      Ok (res, <[Z.to_nat (qoi_pix_hash res) := res]> (memory st), run_length st, in1)
  | QOI_OP_LUMA =>
      let '(second_byte, in2) := read in1 (byte_val (uninit_second_byte i j)) in
      let dg := u8 (u8 (Z.land starting_byte 63) - 32) in
      let dr_minus_dg := u8 (u8 (Z.land (Z.shiftr second_byte 4) 15) - 8) in
      let db_minus_dg := u8 (u8 (Z.land (Z.shiftr second_byte 0) 15) - 8) in
      let res :=
        mkPixel (u8 (r (last_pix st) + dr_minus_dg + dg))
                (u8 (g (last_pix st) + dg))
                (u8 (b (last_pix st) + db_minus_dg + dg))
                (a (last_pix st)) in
      Ok (res, <[Z.to_nat (qoi_pix_hash res) := res]> (memory st), run_length st, in2)
  | QOI_OP_RUN =>
      let run_length := u32 (Z.land starting_byte 63 + 1) in
      let res := last_pix st in
      Ok (res, memory st, u32 (run_length - 1), in1)
  | UnknownChunk => Exit starting_byte j i
  end.

(** The body of the inner loop (lines 71-143) at row [i], column [j]. *)
Definition loop_body (i j : Z) (st : State) : outcome State :=
  if negb (run_length st =? 0) then
    decoded' ← defined (Image.set (decoded st) i j (last_pix st));
    Ok (mkState (memory st) (last_pix st) (u32 (run_length st - 1)) (input st) decoded')
  else
    let '(starting_byte, in1) := read (input st) (byte_val (uninit_starting_byte i j)) in
    '(res, memory', run_length', in') ← decode_chunk i j st starting_byte in1;
    decoded' ← defined (Image.set (decoded st) i j res);
    Ok (mkState memory' res run_length' in' decoded').

(** The state before the loops (lines 62-68); [in0] and [decoded0] are
    the arguments [in] and [decoded] on entry. *)
Definition initial (in0 : list byte) (decoded0 : Image.t) : State :=
  mkState (replicate 64 (mkPixel 0 0 0 0)) (mkPixel 0 0 0 255) 0 in0 decoded0.

(** The two nested loops (lines 69-145). *)
Definition decode_loop (h : QoiHeader) (st : State) : outcome State :=
  for_each (λ i, for_each (λ j, loop_body i j) (seqZ 0 (width h)))
           (seqZ 0 (height h)) st.

(** [do_decode_image] changes its arguments [in] and [decoded]; the
    locals are dropped on return. *)
Definition do_decode_image (h : QoiHeader) (in0 : list byte) (decoded0 : Image.t)
    : outcome (list byte * Image.t) :=
  st ← decode_loop h (initial in0 decoded0);
  Ok (input st, decoded st).

End Decoder.

(** ** Byte order (lines 148-151) *)

(** The four masked bytes are shifted back in as [uint32_t] values and
    joined; [|] binds looser than the shifts. *)
Definition swap_bytes (input : Z) : Z :=
  Z.lor (Z.lor (Z.lor (u32 (Z.shiftl (Z.land (Z.shiftr input 24) 255) 0))
                      (u32 (Z.shiftl (Z.land (Z.shiftr input 16) 255) 8)))
               (u32 (Z.shiftl (Z.land (Z.shiftr input 8) 255) 16)))
        (u32 (Z.shiftl (Z.land (Z.shiftr input 0) 255) 24)).

(** ** The program (lines 153-195) *)

Global Instance byte_eq_dec : EqDecision byte.
Proof.
  intros x y. destruct (Byte.eqb x y) eqn:H;
    [left; by apply Byte.byte_dec_bl | right; by apply Byte.eqb_false].
Defined.

(** The byte that holds a [uint8_t] value. *)
Definition byte_of_Z (z : Z) : byte :=
  default x00 (Byte.of_N (Z.to_N (z mod 256))).

(** [in.read] of [n] bytes into an object whose bytes are [dest]: the
    bytes the stream still has, up to [n], go to the front of the object
    and the rest of it keeps what it held. *)
Definition read_bytes (n : nat) (input dest : list byte) : list byte * list byte :=
  (take n input ++ drop (length input) (take n dest), drop n input).

(** The bytes of a [uint32_t] in memory and the value they stand for, on
    a little-endian host, which the byte swap of the header fields
    supposes. *)
Definition le_bytes (v : Z) : list byte :=
  [byte_of_Z v; byte_of_Z (Z.shiftr v 8); byte_of_Z (Z.shiftr v 16);
   byte_of_Z (Z.shiftr v 24)].

Fixpoint le_value (bs : list byte) : Z :=
  match bs with
  | [] => 0
  | c :: bs' => byte_val c + 256 * le_value bs'
  end.

(** A string literal as bytes, the decimal text [operator<<] prints for
    an unsigned integer, and the newline of [std::endl]. *)
Definition text (s : string) : list byte := String.list_byte_of_string s.

Definition decimal (n : Z) : list byte :=
  text (NilZero.string_of_uint (N.to_uint (Z.to_N n))).

Definition endl : list byte := [x0a].

(** What a run of the program leaves: the value returned by [main] or
    given to [exit], and the bytes written to [std::cout] and
    [std::cerr]. *)
Record Process := mkProcess { status : Z; cout : list byte; cerr : list byte }.

(** How a run ends: [main] returns or [exit] is called; or the
    [std::bad_alloc] thrown by [new Pixel[n]] (line 39) leaves [main]
    uncaught and [std::terminate] ends the run, before anything is
    written; or the behaviour is undefined. *)
Inductive Run : Type :=
  | Finished (p : Process)
  | Terminated
  | Unspecified.

Section Main.

(** The surroundings of a run: the indeterminate bytes of the decoder,
    whether standard output is a terminal, the files that can be opened
    with their content, and what the header object and the pixel buffer
    hold before they are written. *)
Variable uninit_starting_byte : Z → Z → byte.
Variable uninit_second_byte : Z → Z → byte.
Variable stdout_isatty : bool.
Variable open : list byte → option (list byte).
Variable uninit_header : QoiHeader.
Variable fresh : nat → Pixel.

(** Whether [new Pixel[n]] finds the memory for [n] pixels. *)
Variable allocates : Z → bool.

(** The reads of the header (lines 166-175). *)
Definition read_header (in0 : list byte) : QoiHeader * list byte :=
  let '(header_magic, in1) := read_bytes 4 in0 (magic uninit_header) in
  let '(width_bytes, in2) := read_bytes 4 in1 (le_bytes (width uninit_header)) in
  let header_width := swap_bytes (le_value width_bytes) in
  let '(height_bytes, in3) := read_bytes 4 in2 (le_bytes (height uninit_header)) in
  let header_height := swap_bytes (le_value height_bytes) in
  let '(header_channels, in4) := read in3 (channels uninit_header) in
  let '(header_colorspace, in5) := read in4 (colorspace uninit_header) in
  (mkQoiHeader header_magic header_width header_height header_channels
               header_colorspace, in5).

(** The loops that write the pixels (lines 183-190); a [get] outside the
    buffer is undefined. *)
Definition write_pixels (header : QoiHeader) (decoded : Image.t) (out : list byte)
    : outcome (list byte) :=
  for_each (λ i, for_each (λ j out,
              p ← defined (Image.get decoded i j);
              Ok (out ++ [byte_of_Z (r p)] ++ [byte_of_Z (g p)] ++ [byte_of_Z (b p)]))
              (seqZ 0 (width header)))
           (seqZ 0 (height header)) out.

(** [main] on the arguments [argv], program name included.  [memcmp]
    with ["-f"] looks at the first two bytes of the terminated argument;
    a stream that could not be opened fails every read, as an empty one
    does; [Image decoded(width, height)] asks for [width * height]
    pixels, a [uint32_t] product; the bytes written reach the output
    unchanged. *)
Definition main (argv : list (list byte)) : Run :=
  match argv with
  | [] => Unspecified
  | [argv0] =>
      Finished (mkProcess (-1) []
                  (text "Usage: " ++ argv0 ++ text " [-f] (file.qoi) " ++ endl))
  | argv0 :: argv1 :: _ =>
      if stdout_isatty && negb (bool_decide (take 2 (argv1 ++ [x00]) = text "-f")) then
        Finished (mkProcess (-2) []
                    (text "Refusing to output .pnm to terminal, pass -f to override!"
                     ++ endl))
      else
        let in0 := default [] (last argv ≫= open) in
        let '(header, in1) := read_header in0 in
        if bool_decide (magic header = text "qoif") then
          if allocates (u32 (width header * height header)) then
            match do_decode_image uninit_starting_byte uninit_second_byte header in1
                    (Image.new (width header) (height header) fresh) with
            | Ok (_, decoded) =>
                let out := text "P6" ++ endl
                           ++ decimal (width header) ++ text " "
                           ++ decimal (height header) ++ endl
                           ++ text "255" ++ endl in
                match write_pixels header decoded out with
                | Ok out' => Finished (mkProcess 0 out' [])
                | _ => Unspecified
                end
            | Exit starting_byte j i =>
                Finished (mkProcess (-1) []
                            (text "Unknown chunk with starting byte: "
                             ++ [byte_of_Z starting_byte]
                             ++ text ", at pixel x: " ++ decimal j
                             ++ text ", y: " ++ decimal i ++ endl))
            | Undefined => Unspecified
            end
          else Terminated
        else
          Finished (mkProcess (-1) []
                      (text "Bad qoi header (incorrect magic)!" ++ endl))
  end.

End Main.

(** ** Notions used in the statements *)

(** A pixel whose four channels are 8-bit values. *)
Definition wf_pixel (p : Pixel) : Prop :=
  0 ≤ r p < 256 ∧ 0 ≤ g p < 256 ∧ 0 ≤ b p < 256 ∧ 0 ≤ a p < 256.

(** What the types of the source give for the decoder's variables: 64
    cache slots of 8-bit pixels, an 8-bit [last_pix], and a run length
    that only ever holds a 6-bit field. *)
Record wf_state (st : State) : Prop := mk_wf_state {
  wf_memory_length : length (memory st) = 64%nat;
  wf_memory : Forall wf_pixel (memory st);
  wf_last_pix : wf_pixel (last_pix st);
  wf_run_length : 0 ≤ run_length st < 64
}.

(** Cell [(row, col)] lies inside the pixel buffer. *)
Definition in_bounds (img : Image.t) (row col : Z) : Prop :=
  (Image.offset img row col < length (Image.a img))%nat.

(** The image handed to [do_decode_image] by [main]: built for the
    header's dimensions, two [uint32_t] whose product is one as well. *)
Record fits (h : QoiHeader) (img : Image.t) : Prop := mk_fits {
  fits_width : Image.width img = width h;
  fits_length : length (Image.a img) = Z.to_nat (width h * height h);
  fits_width_u32 : 0 ≤ width h < 2 ^ 32;
  fits_height_u32 : 0 ≤ height h < 2 ^ 32;
  fits_u32 : width h * height h < 2 ^ 32
}.

(** The grid positions [(i, j)] in the order the nested loops visit them. *)
Definition positions (h : QoiHeader) : list (Z * Z) :=
  i ← seqZ 0 (height h); j ← seqZ 0 (width h); [(i, j)].

(** The loop body run over a list of grid positions. *)
Definition run_cells (usb u2b : Z → Z → byte) (cells : list (Z * Z)) (st : State)
    : outcome State :=
  for_each (λ c, loop_body usb u2b c.1 c.2) cells st.

(** The chunk decoded at a grid position; [None] while a run is replayed. *)
Definition chunk_at (usb : Z → Z → byte) (i j : Z) (st : State) : option Chunk :=
  if negb (run_length st =? 0) then None
  else Some (chunk_of (read (input st) (byte_val (usb i j))).1).

(** The chunks that store their pixel in the pixel cache. *)
Definition records (c : option Chunk) : bool :=
  match c with
  | Some QOI_OP_RGB | Some QOI_OP_RGBA | Some QOI_OP_DIFF | Some QOI_OP_LUMA => true
  | _ => false
  end.

(** The pixels produced by recording chunks while the loop body runs over
    [cells] from [st], oldest first. *)
Fixpoint history (usb u2b : Z → Z → byte) (cells : list (Z * Z)) (st : State)
    : list Pixel :=
  match cells with
  | [] => []
  | c :: cells' =>
      match loop_body usb u2b c.1 c.2 st with
      | Ok st' =>
          (if records (chunk_at usb c.1 c.2 st) then [last_pix st'] else [])
            ++ history usb u2b cells' st'
      | _ => []
      end
  end.

(** The most recent pixel of [log] that hashes to [slot]; the initial
    content of the slot when there is none. *)
Definition latest (log : list Pixel) (slot : nat) : Pixel :=
  default (mkPixel 0 0 0 0)
          (last (filter (λ p, Z.to_nat (qoi_pix_hash p) = slot) log)).

(** Two states that differ at most in the content of the pixel buffer. *)
Definition same_cursor (st1 st2 : State) : Prop :=
  memory st1 = memory st2 ∧ last_pix st1 = last_pix st2
  ∧ run_length st1 = run_length st2 ∧ input st1 = input st2
  ∧ Image.width (decoded st1) = Image.width (decoded st2)
  ∧ length (Image.a (decoded st1)) = length (Image.a (decoded st2)).


(** The value of four bytes read most significant first. *)
Definition big_endian (c3 c2 c1 c0 : byte) : Z :=
  byte_val c3 * 2 ^ 24 + byte_val c2 * 2 ^ 16 + byte_val c1 * 2 ^ 8 + byte_val c0.

(** ** Sample inputs *)

(** A value for the uninitialised bytes, a header and a freshly built
    image for it. *)
Definition zero_bytes : Z → Z → byte := λ _ _, x00.

Definition header (w h : Z) : QoiHeader :=
  mkQoiHeader [x71; x6f; x69; x66] w h 4 0.

Definition blank (w h : Z) : Image.t := Image.new w h (λ _, mkPixel 0 0 0 0).

(** A state between two chunks: an empty pixel cache but for [cached] in
    slot 5, the given [last_pix], no pending run. *)
Definition sample_state (cached lp : Pixel) (s : list byte) (img : Image.t) : State :=
  mkState (<[5%nat := cached]> (replicate 64 (mkPixel 0 0 0 0))) lp 0 s img.

(** A file of a 2 by 1 image, a file that is no image, and a file system
    that holds both. *)
Definition sample_file : list byte :=
  text "qoif" ++ [x00; x00; x00; x02; x00; x00; x00; x01; x04; x00]
  ++ [xfe; x01; x02; x03; xc0; x00; x00; x00; x00; x00; x00; x00; x01].

Definition sample_open (name : list byte) : option (list byte) :=
  if bool_decide (name = text "a.qoi") then Some sample_file
  else if bool_decide (name = text "notes.txt") then Some (text "hello")
  else None.

(** * Properties *)

(** ** Bytes and bit fields *)

Lemma byte_val_range (c : byte) : 0 ≤ byte_val c < 256.
Proof.
  unfold byte_val. pose proof (Byte.to_N_bounded c). lia.
Qed.

Lemma u8_range (x : Z) : 0 ≤ u8 x < 256.
Proof. unfold u8. apply Z.mod_pos_bound. lia. Qed.

Lemma land_3 (x : Z) : Z.land x 3 = x mod 4.
Proof. change 3 with (Z.ones 2). rewrite Z.land_ones; [reflexivity | lia]. Qed.

Lemma land_15 (x : Z) : Z.land x 15 = x mod 16.
Proof. change 15 with (Z.ones 4). rewrite Z.land_ones; [reflexivity | lia]. Qed.

Lemma land_63 (x : Z) : Z.land x 63 = x mod 64.
Proof. change 63 with (Z.ones 6). rewrite Z.land_ones; [reflexivity | lia]. Qed.

Lemma land_63_range (x : Z) : 0 ≤ Z.land x 63 < 64.
Proof. rewrite land_63. apply Z.mod_pos_bound. lia. Qed.

Lemma read_range (s : list byte) (d : Z) :
  0 ≤ d < 256 → 0 ≤ (read s d).1 < 256.
Proof.
  destruct s as [|c s]; simpl; [done | intros _; apply byte_val_range].
Qed.

(** ** The pixel hash *)

Lemma qoi_pix_hash_mod (p : Pixel) :
  wf_pixel p → qoi_pix_hash p = (r p * 3 + g p * 5 + b p * 7 + a p * 11) mod 64.
Proof.
  intros (?&?&?&?). unfold qoi_pix_hash. apply Z.rem_mod_nonneg; lia.
Qed.

Lemma qoi_pix_hash_range (p : Pixel) : wf_pixel p → 0 ≤ qoi_pix_hash p < 64.
Proof.
  intros Hp. rewrite (qoi_pix_hash_mod p Hp). apply Z.mod_pos_bound. lia.
Qed.

Lemma qoi_pix_hash_slot (p : Pixel) :
  wf_pixel p → (Z.to_nat (qoi_pix_hash p) < 64)%nat.
Proof. intros Hp. pose proof (qoi_pix_hash_range p Hp). lia. Qed.

(** C6: on pixels with 8-bit channels the hash is
    [(r*3 + g*5 + b*7 + a*11) mod 64], it lies in [0, 63], two pixels with
    the same four channel values have the same hash, and the hash of
    [{0,0,0,0}] is 0. *)
Theorem qoi_pix_hash_spec (p : Pixel) :
  wf_pixel p →
  qoi_pix_hash p = (r p * 3 + g p * 5 + b p * 7 + a p * 11) mod 64
  ∧ 0 ≤ qoi_pix_hash p ≤ 63
  ∧ (∀ q : Pixel, r q = r p → g q = g p → b q = b p → a q = a p →
       qoi_pix_hash q = qoi_pix_hash p)
  ∧ qoi_pix_hash (mkPixel 0 0 0 0) = 0.
Proof.
  intros Hp. split; [by apply qoi_pix_hash_mod|].
  split; [pose proof (qoi_pix_hash_range p Hp); lia|].
  split; [|reflexivity].
  intros q Hr Hg Hb Ha. unfold qoi_pix_hash. by rewrite Hr, Hg, Hb, Ha.
Qed.

Lemma qoi_pix_hash_spec_witness :
  wf_pixel (mkPixel 200 100 50 255)
  ∧ (qoi_pix_hash (mkPixel 200 100 50 255) = (200 * 3 + 100 * 5 + 50 * 7 + 255 * 11) mod 64
     ∧ 0 ≤ qoi_pix_hash (mkPixel 200 100 50 255) ≤ 63
     ∧ (∀ q : Pixel, r q = 200 → g q = 100 → b q = 50 → a q = 255 →
          qoi_pix_hash q = qoi_pix_hash (mkPixel 200 100 50 255))
     ∧ qoi_pix_hash (mkPixel 0 0 0 0) = 0).
Proof.
  assert (Hp : wf_pixel (mkPixel 200 100 50 255)) by (unfold wf_pixel; simpl; lia).
  split; [exact Hp | exact (qoi_pix_hash_spec (mkPixel 200 100 50 255) Hp)].
Defined.

(** ** Classification of tag bytes *)

Lemma chunk_of_known (starting_byte : Z) : chunk_of starting_byte ≠ UnknownChunk.
Proof.
  unfold chunk_of. rewrite land_3.
  pose proof (Z.mod_pos_bound (Z.shiftr starting_byte 6) 4 ltac:(lia)).
  repeat case_match; try discriminate; lia.
Qed.

Lemma chunk_of_INDEX (t : Z) :
  Z.land (Z.shiftr t 6) 3 = 0 → chunk_of t = QOI_OP_INDEX.
Proof.
  intros H. unfold chunk_of.
  destruct (Z.eqb_spec t 254) as [->|_]; [discriminate H|].
  destruct (Z.eqb_spec t 255) as [->|_]; [discriminate H|].
  by rewrite H.
Qed.

Lemma chunk_of_DIFF (t : Z) :
  Z.land (Z.shiftr t 6) 3 = 1 → chunk_of t = QOI_OP_DIFF.
Proof.
  intros H. unfold chunk_of.
  destruct (Z.eqb_spec t 254) as [->|_]; [discriminate H|].
  destruct (Z.eqb_spec t 255) as [->|_]; [discriminate H|].
  by rewrite H.
Qed.

Lemma chunk_of_LUMA (t : Z) :
  Z.land (Z.shiftr t 6) 3 = 2 → chunk_of t = QOI_OP_LUMA.
Proof.
  intros H. unfold chunk_of.
  destruct (Z.eqb_spec t 254) as [->|_]; [discriminate H|].
  destruct (Z.eqb_spec t 255) as [->|_]; [discriminate H|].
  by rewrite H.
Qed.

Lemma chunk_of_RUN (t : Z) :
  Z.land (Z.shiftr t 6) 3 = 3 → Z.land t 63 ≤ 61 → chunk_of t = QOI_OP_RUN.
Proof.
  intros H Hv. unfold chunk_of.
  destruct (Z.eqb_spec t 254) as [->|_]; [by vm_compute in Hv|].
  destruct (Z.eqb_spec t 255) as [->|_]; [by vm_compute in Hv|].
  by rewrite H.
Qed.

(** ** The pixel buffer *)

Lemma set_in_bounds (img : Image.t) (row col : Z) (val : Pixel) :
  in_bounds img row col →
  Image.set img row col val
  = Some (Image.mk (<[Image.offset img row col := val]> (Image.a img))
                   (Image.width img) (Image.height img)).
Proof. intros H. unfold Image.set. by rewrite decide_True. Qed.

Lemma set_Some_in_bounds (img img' : Image.t) (row col : Z) (val : Pixel) :
  Image.set img row col val = Some img' → in_bounds img row col.
Proof. unfold Image.set. case_decide; [done | discriminate]. Qed.

Lemma set_width (img img' : Image.t) (row col : Z) (val : Pixel) :
  Image.set img row col val = Some img' → Image.width img' = Image.width img.
Proof. unfold Image.set. case_decide; [|discriminate]. by intros [= <-]. Qed.

Lemma set_length (img img' : Image.t) (row col : Z) (val : Pixel) :
  Image.set img row col val = Some img' →
  length (Image.a img') = length (Image.a img).
Proof.
  unfold Image.set. case_decide; [|discriminate]. intros [= <-]. simpl.
  apply length_insert.
Qed.

Lemma set_offset (img img' : Image.t) (row col : Z) (val : Pixel) (row' col' : Z) :
  Image.set img row col val = Some img' →
  Image.offset img' row' col' = Image.offset img row' col'.
Proof. intros H. unfold Image.offset. by rewrite (set_width _ _ _ _ _ H). Qed.

Lemma get_set_eq (img img' : Image.t) (row col : Z) (val : Pixel) :
  Image.set img row col val = Some img' → Image.get img' row col = Some val.
Proof.
  unfold Image.set. case_decide as Hlt; [|discriminate]. intros [= <-].
  unfold Image.get. simpl. unfold Image.offset at 1. simpl.
  by apply list_lookup_insert_eq.
Qed.

Lemma get_set_same_offset (img img' : Image.t) (row col : Z) (val : Pixel)
    (row' col' : Z) :
  Image.set img row col val = Some img' →
  Image.offset img row' col' = Image.offset img row col →
  Image.get img' row' col' = Some val.
Proof.
  intros H Ho. unfold Image.get.
  rewrite (set_offset _ _ _ _ _ row' col' H), Ho.
  pose proof (get_set_eq _ _ _ _ _ H) as Hg. unfold Image.get in Hg.
  by rewrite (set_offset _ _ _ _ _ row col H) in Hg.
Qed.

Lemma get_set_ne (img img' : Image.t) (row col : Z) (val : Pixel) (row' col' : Z) :
  Image.set img row col val = Some img' →
  Image.offset img row' col' ≠ Image.offset img row col →
  Image.get img' row' col' = Image.get img row' col'.
Proof.
  intros H Hne. unfold Image.get. rewrite (set_offset _ _ _ _ _ row' col' H).
  revert H. unfold Image.set. case_decide; [|discriminate]. intros [= <-]. simpl.
  by apply list_lookup_insert_ne.
Qed.

Lemma in_bounds_set (img img' : Image.t) (row col : Z) (val : Pixel) (row' col' : Z) :
  Image.set img row col val = Some img' →
  in_bounds img' row' col' ↔ in_bounds img row' col'.
Proof.
  intros H. unfold in_bounds.
  by rewrite (set_offset _ _ _ _ _ row' col' H), (set_length _ _ _ _ _ H).
Qed.

(** ** One iteration of the loop body *)

Section Step.

Context (usb u2b : Z → Z → byte).

(** With no run pending and a byte left in the stream, the iteration
    reads that byte as its tag. *)
Lemma loop_body_tag (i j : Z) (st : State) (tag : byte) (rest : list byte) :
  run_length st = 0 → input st = tag :: rest →
  loop_body usb u2b i j st
  = ('(res, memory', run_length', in') ← decode_chunk u2b i j st (byte_val tag) rest;
     decoded' ← defined (Image.set (decoded st) i j res);
     Ok (mkState memory' res run_length' in' decoded')).
Proof. intros Hrl Hin. unfold loop_body. by rewrite Hrl, Hin. Qed.

Lemma loop_body_in_run (i j : Z) (st : State) :
  run_length st ≠ 0 →
  loop_body usb u2b i j st
  = (decoded' ← defined (Image.set (decoded st) i j (last_pix st));
     Ok (mkState (memory st) (last_pix st) (u32 (run_length st - 1)) (input st)
                 decoded')).
Proof.
  intros Hrl. unfold loop_body.
  by destruct (Z.eqb_spec (run_length st) 0).
Qed.

Lemma recorded_lookup (st : State) (res : Pixel) :
  wf_state st → wf_pixel res →
  <[Z.to_nat (qoi_pix_hash res) := res]> (memory st) !! Z.to_nat (qoi_pix_hash res)
  = Some res.
Proof.
  intros Hst Hres. apply list_lookup_insert_eq.
  rewrite (wf_memory_length st Hst). by apply qoi_pix_hash_slot.
Qed.

(** C5: a QOI_OP_RGB chunk (tag 0xFE and three more bytes) gives the
    pixel whose r, g, b are those three bytes and whose alpha is that of
    [last_pix]; the pixel is written to the grid, becomes [last_pix] and
    is stored in the pixel cache at its hash. *)
Theorem rgb_chunk (i j : Z) (st : State) (c_r c_g c_b : byte) (rest : list byte) :
  wf_state st →
  run_length st = 0 →
  input st = xfe :: c_r :: c_g :: c_b :: rest →
  in_bounds (decoded st) i j →
  let res := mkPixel (byte_val c_r) (byte_val c_g) (byte_val c_b) (a (last_pix st)) in
  ∃ st', loop_body usb u2b i j st = Ok st'
    ∧ last_pix st' = res
    ∧ a (last_pix st') = a (last_pix st)
    ∧ Image.get (decoded st') i j = Some res
    ∧ memory st' = <[Z.to_nat (qoi_pix_hash res) := res]> (memory st)
    ∧ memory st' !! Z.to_nat (qoi_pix_hash res) = Some res
    ∧ input st' = rest.
Proof.
  intros Hst Hrl Hin Hb res.
  rewrite (loop_body_tag i j st _ _ Hrl Hin).
  unfold decode_chunk. change (chunk_of (byte_val xfe)) with QOI_OP_RGB. simpl.
  fold res. rewrite (set_in_bounds _ _ _ res Hb). simpl.
  eexists. split; [reflexivity|]. simpl. repeat split.
  - unfold Image.get, Image.offset. simpl. by apply list_lookup_insert_eq.
  - apply recorded_lookup; [done|].
    destruct (wf_last_pix st Hst) as (_&_&_&?).
    pose proof (byte_val_range c_r). pose proof (byte_val_range c_g).
    pose proof (byte_val_range c_b). by unfold wf_pixel, res.
Qed.

Lemma u8_small (x : Z) : 0 ≤ x < 256 → u8 x = x.
Proof. intros H. unfold u8. by apply Z.mod_small. Qed.

Lemma u8_add_u8 (x y z : Z) : u8 (x + u8 y + u8 z) = u8 (x + y + z).
Proof.
  unfold u8. rewrite Z.add_mod_idemp_r by lia.
  replace (x + y mod 256 + z) with (x + z + y mod 256) by lia.
  rewrite Z.add_mod_idemp_r by lia. f_equal. lia.
Qed.

(** C3: a QOI_OP_DIFF chunk adds to each of r, g, b of [last_pix] the
    2-bit field of the tag minus 2, modulo 256, keeps the alpha of
    [last_pix] and stores the pixel in the pixel cache; field 0 on
    [last_pix.r = 1] gives 255. *)
Theorem diff_chunk (i j : Z) (st : State) (tag : byte) (rest : list byte) :
  wf_state st →
  run_length st = 0 →
  input st = tag :: rest →
  Z.land (Z.shiftr (byte_val tag) 6) 3 = 1 →
  in_bounds (decoded st) i j →
  let dr := Z.land (Z.shiftr (byte_val tag) 4) 3 - 2 in
  let dg := Z.land (Z.shiftr (byte_val tag) 2) 3 - 2 in
  let db := Z.land (byte_val tag) 3 - 2 in
  let res := mkPixel ((r (last_pix st) + dr) mod 256)
                     ((g (last_pix st) + dg) mod 256)
                     ((b (last_pix st) + db) mod 256)
                     (a (last_pix st)) in
  (-2 ≤ dr ≤ 1 ∧ -2 ≤ dg ≤ 1 ∧ -2 ≤ db ≤ 1)
  ∧ ∃ st', loop_body usb u2b i j st = Ok st'
    ∧ last_pix st' = res
    ∧ Image.get (decoded st') i j = Some res
    ∧ memory st' = <[Z.to_nat (qoi_pix_hash res) := res]> (memory st)
    ∧ memory st' !! Z.to_nat (qoi_pix_hash res) = Some res
    ∧ input st' = rest
    ∧ (r (last_pix st) = 1 → Z.land (Z.shiftr (byte_val tag) 4) 3 = 0 →
       r (last_pix st') = 255).
Proof.
  intros Hst Hrl Hin Htag Hb dr dg db res.
  split.
  { unfold dr, dg, db. rewrite !land_3.
    pose proof (Z.mod_pos_bound (Z.shiftr (byte_val tag) 4) 4).
    pose proof (Z.mod_pos_bound (Z.shiftr (byte_val tag) 2) 4).
    pose proof (Z.mod_pos_bound (byte_val tag) 4). lia. }
  rewrite (loop_body_tag i j st _ _ Hrl Hin).
  unfold decode_chunk. rewrite (chunk_of_DIFF _ Htag). simpl.
  rewrite Z.shiftr_0_r.
  replace (mkPixel _ _ _ _) with res.
  2:{ unfold res, dr, dg, db, u8. f_equal; f_equal; lia. }
  rewrite (set_in_bounds _ _ _ res Hb). simpl.
  eexists. split; [reflexivity|]. simpl. repeat split.
  - unfold Image.get, Image.offset. simpl. by apply list_lookup_insert_eq.
  - apply recorded_lookup; [done|].
    destruct (wf_last_pix st Hst) as (_&_&_&?).
    unfold wf_pixel, res. simpl.
    repeat split; try apply Z.mod_pos_bound; lia.
  - intros Hr Hf. unfold dr. by rewrite Hr, Hf.
Qed.

(** C2: a QOI_OP_LUMA chunk (a tag with top bits 10 and a second byte)
    gives g = last_pix.g + dg, r = last_pix.r + (dr-dg) + dg and
    b = last_pix.b + (db-dg) + dg modulo 256, where dg is the low six
    bits of the tag minus 32 and (dr-dg), (db-dg) are the high and low
    nibbles of the second byte minus 8; alpha is that of [last_pix] and
    the pixel is stored in the pixel cache at its hash. *)
Theorem luma_chunk (i j : Z) (st : State) (tag second : byte) (rest : list byte) :
  wf_state st →
  run_length st = 0 →
  input st = tag :: second :: rest →
  Z.land (Z.shiftr (byte_val tag) 6) 3 = 2 →
  in_bounds (decoded st) i j →
  let dg := Z.land (byte_val tag) 63 - 32 in
  let dr_dg := Z.land (Z.shiftr (byte_val second) 4) 15 - 8 in
  let db_dg := Z.land (byte_val second) 15 - 8 in
  let res := mkPixel ((r (last_pix st) + dr_dg + dg) mod 256)
                     ((g (last_pix st) + dg) mod 256)
                     ((b (last_pix st) + db_dg + dg) mod 256)
                     (a (last_pix st)) in
  (-32 ≤ dg ≤ 31 ∧ -8 ≤ dr_dg ≤ 7 ∧ -8 ≤ db_dg ≤ 7)
  ∧ ∃ st', loop_body usb u2b i j st = Ok st'
    ∧ last_pix st' = res
    ∧ Image.get (decoded st') i j = Some res
    ∧ memory st' = <[Z.to_nat (qoi_pix_hash res) := res]> (memory st)
    ∧ memory st' !! Z.to_nat (qoi_pix_hash res) = Some res
    ∧ input st' = rest.
Proof.
  intros Hst Hrl Hin Htag Hb dg dr_dg db_dg res.
  assert (Hdg : 0 ≤ Z.land (byte_val tag) 63 < 64) by apply land_63_range.
  assert (Hn1 : 0 ≤ Z.land (Z.shiftr (byte_val second) 4) 15 < 16).
  { rewrite land_15. apply Z.mod_pos_bound. lia. }
  assert (Hn2 : 0 ≤ Z.land (byte_val second) 15 < 16).
  { rewrite land_15. apply Z.mod_pos_bound. lia. }
  split; [unfold dg, dr_dg, db_dg; lia|].
  rewrite (loop_body_tag i j st _ _ Hrl Hin).
  unfold decode_chunk. rewrite (chunk_of_LUMA _ Htag). simpl.
  rewrite Z.shiftr_0_r.
  replace (mkPixel _ _ _ _) with res.
  2:{ unfold res, dg, dr_dg, db_dg.
      rewrite !(u8_small (Z.land _ _)) by lia.
      rewrite !u8_add_u8. f_equal.
      unfold u8. rewrite Z.add_mod_idemp_r by lia. reflexivity. }
  rewrite (set_in_bounds _ _ _ res Hb). simpl.
  eexists. split; [reflexivity|]. simpl. repeat split.
  - unfold Image.get, Image.offset. simpl. by apply list_lookup_insert_eq.
  - apply recorded_lookup; [done|].
    destruct (wf_last_pix st Hst) as (_&_&_&?).
    unfold wf_pixel, res. simpl.
    repeat split; try apply Z.mod_pos_bound; lia.
Qed.

(** C7: a QOI_OP_INDEX chunk with index k emits the pixel of cache slot
    k as it stands and leaves every slot of the cache, slot k included,
    as it was. *)
Theorem index_chunk (i j : Z) (st : State) (tag : byte) (rest : list byte) :
  wf_state st →
  run_length st = 0 →
  input st = tag :: rest →
  Z.land (Z.shiftr (byte_val tag) 6) 3 = 0 →
  in_bounds (decoded st) i j →
  let k := Z.to_nat (Z.land (byte_val tag) 63) in
  ∃ st' res, loop_body usb u2b i j st = Ok st'
    ∧ memory st !! k = Some res
    ∧ last_pix st' = res
    ∧ Image.get (decoded st') i j = Some res
    ∧ memory st' = memory st
    ∧ (∀ slot : nat, memory st' !! slot = memory st !! slot)
    ∧ input st' = rest.
Proof.
  intros Hst Hrl Hin Htag Hb k.
  pose proof (land_63_range (byte_val tag)) as Hk.
  destruct (lookup_lt_is_Some_2 (memory st) k) as [res Hres].
  { rewrite (wf_memory_length st Hst). unfold k. lia. }
  rewrite (loop_body_tag i j st _ _ Hrl Hin).
  unfold decode_chunk. rewrite (chunk_of_INDEX _ Htag). simpl.
  fold k. rewrite (list_lookup_total_correct _ _ _ Hres).
  rewrite (set_in_bounds _ _ _ res Hb). simpl.
  exists (mkState (memory st) res (run_length st) rest
            (Image.mk (<[Image.offset (decoded st) i j := res]> (Image.a (decoded st)))
                      (Image.width (decoded st)) (Image.height (decoded st)))), res.
  simpl. repeat split; try done.
  unfold Image.get, Image.offset. simpl. by apply list_lookup_insert_eq.
Qed.

End Step.

(** ** Every iteration falls through *)

Section Loop.

Context (usb u2b : Z → Z → byte).

Lemma u32_small (x : Z) : 0 ≤ x < 2 ^ 32 → u32 x = x.
Proof. intros H. unfold u32. by apply Z.mod_small. Qed.

Lemma wf_pixel_lookup_total (st : State) (k : nat) :
  wf_state st → (k < 64)%nat → wf_pixel (memory st !!! k).
Proof.
  intros Hst Hk.
  destruct (lookup_lt_is_Some_2 (memory st) k) as [p Hp].
  { by rewrite (wf_memory_length st Hst). }
  rewrite (list_lookup_total_correct _ _ _ Hp).
  exact (proj1 (Forall_lookup _ _) (wf_memory st Hst) k p Hp).
Qed.

(** What a chunk yields, whatever the tag: a pixel with 8-bit channels,
    a run length below 64, and a pixel cache that is either untouched or
    updated at the hash of the pixel, by the kind of chunk. *)
Lemma decode_chunk_spec (i j : Z) (st : State) (starting_byte : Z) (in1 : list byte) :
  wf_state st → run_length st = 0 →
  ∃ res memory' run_length' in',
    decode_chunk u2b i j st starting_byte in1 = Ok (res, memory', run_length', in')
    ∧ wf_pixel res
    ∧ 0 ≤ run_length' < 64
    ∧ memory' = (if records (Some (chunk_of starting_byte))
                 then <[Z.to_nat (qoi_pix_hash res) := res]> (memory st)
                 else memory st).
Proof.
  intros Hst Hrl.
  destruct (wf_last_pix st Hst) as (Hlr & Hlg & Hlb & Hla).
  unfold decode_chunk.
  destruct (chunk_of starting_byte) eqn:Hc; simpl.
  - destruct (read in1 0) as [res_r in2] eqn:H1.
    destruct (read in2 0) as [res_g in3] eqn:H2.
    destruct (read in3 0) as [res_b in4] eqn:H3.
    pose proof (read_range in1 0 ltac:(lia)) as R1. rewrite H1 in R1.
    pose proof (read_range in2 0 ltac:(lia)) as R2. rewrite H2 in R2.
    pose proof (read_range in3 0 ltac:(lia)) as R3. rewrite H3 in R3.
    eexists _, _, _, _. split; [reflexivity|].
    repeat split; simpl in *; lia.
  - destruct (read in1 0) as [res_r in2] eqn:H1.
    destruct (read in2 0) as [res_g in3] eqn:H2.
    destruct (read in3 0) as [res_b in4] eqn:H3.
    destruct (read in4 255) as [res_a in5] eqn:H4.
    pose proof (read_range in1 0 ltac:(lia)) as R1. rewrite H1 in R1.
    pose proof (read_range in2 0 ltac:(lia)) as R2. rewrite H2 in R2.
    pose proof (read_range in3 0 ltac:(lia)) as R3. rewrite H3 in R3.
    pose proof (read_range in4 255 ltac:(lia)) as R4. rewrite H4 in R4.
    eexists _, _, _, _. split; [reflexivity|].
    repeat split; simpl in *; lia.
  - eexists _, _, _, _. split; [reflexivity|].
    pose proof (land_63_range starting_byte).
    split; [apply wf_pixel_lookup_total; [done | lia]|].
    split; [lia | done].
  - eexists _, _, _, _. split; [reflexivity|].
    split; [|split; [lia | done]].
    unfold wf_pixel; simpl. pose proof u8_range. repeat split; try apply u8_range; lia.
  - destruct (read in1 (byte_val (u2b i j))) as [second_byte in2].
    eexists _, _, _, _. split; [reflexivity|].
    split; [|split; [lia | done]].
    unfold wf_pixel; simpl. repeat split; try apply u8_range; lia.
  - eexists _, _, _, _. split; [reflexivity|].
    pose proof (land_63_range starting_byte).
    split; [done|]. split; [|done].
    rewrite (u32_small (_ + 1)) by lia. rewrite u32_small by lia. lia.
  - by destruct (chunk_of_known starting_byte).
Qed.

(** One iteration on a well-formed state: it falls through exactly when
    the cell is inside the buffer, writes the new [last_pix] there, and
    touches the pixel cache only for a recording chunk. *)
Lemma loop_body_spec (i j : Z) (st : State) :
  wf_state st →
  ∃ res memory' run_length' in',
    loop_body usb u2b i j st
    = (decoded' ← defined (Image.set (decoded st) i j res);
       Ok (mkState memory' res run_length' in' decoded'))
    ∧ wf_pixel res
    ∧ 0 ≤ run_length' < 64
    ∧ length memory' = 64%nat
    ∧ Forall wf_pixel memory'
    ∧ memory' = (if records (chunk_at usb i j st)
                 then <[Z.to_nat (qoi_pix_hash res) := res]> (memory st)
                 else memory st).
Proof.
  intros Hst. pose proof (wf_run_length st Hst) as Hrl.
  unfold loop_body, chunk_at.
  destruct (Z.eqb_spec (run_length st) 0) as [Hz|Hnz]; simpl.
  - destruct (read (input st) (byte_val (usb i j))) as [starting_byte in1]. simpl.
    destruct (decode_chunk_spec i j st starting_byte in1 Hst Hz)
      as (res & m & rl & in' & -> & Hres & Hrl' & Hm).
    exists res, m, rl, in'. simpl. split_and!; try done; try lia.
    + subst m. destruct (chunk_of starting_byte); simpl; rewrite ?length_insert;
        apply (wf_memory_length st Hst).
    + subst m. destruct (chunk_of starting_byte); simpl; try apply Forall_insert;
        try done; apply (wf_memory st Hst).
  - exists (last_pix st), (memory st), (u32 (run_length st - 1)), (input st).
    rewrite u32_small by lia.
    split_and!; try done; try lia; apply Hst.
Qed.

Lemma loop_body_Ok (i j : Z) (st st' : State) :
  wf_state st → loop_body usb u2b i j st = Ok st' →
  wf_state st'
  ∧ Image.set (decoded st) i j (last_pix st') = Some (decoded st')
  ∧ memory st' = (if records (chunk_at usb i j st)
                  then <[Z.to_nat (qoi_pix_hash (last_pix st')) := last_pix st']> (memory st)
                  else memory st).
Proof.
  intros Hst.
  destruct (loop_body_spec i j st Hst)
    as (res & m & rl & in' & -> & Hres & Hrl & Hlen & Hall & Hm).
  destruct (Image.set (decoded st) i j res) as [d|] eqn:Hset; simpl; [|discriminate].
  intros [= <-]. simpl. split_and!; [by constructor | done | done].
Qed.

Lemma loop_body_total (i j : Z) (st : State) :
  wf_state st → in_bounds (decoded st) i j →
  ∃ st', loop_body usb u2b i j st = Ok st'.
Proof.
  intros Hst Hb.
  destruct (loop_body_spec i j st Hst) as (res & m & rl & in' & -> & _).
  rewrite (set_in_bounds _ _ _ res Hb). simpl. by eexists.
Qed.

End Loop.

(** ** The loops *)

Lemma for_each_app {A S : Type} (body : A → S → outcome S) (xs ys : list A) (st : S) :
  for_each body (xs ++ ys) st = (st' ← for_each body xs st; for_each body ys st').
Proof.
  revert st. induction xs as [|x xs IH]; intros st; simpl; [done|].
  destruct (body x st); simpl; [apply IH | done | done].
Qed.

Lemma for_each_row {A B S : Type} (body : A → B → S → outcome S) (i : A)
    (js : list B) (st : S) :
  for_each (body i) js st = for_each (λ c, body c.1 c.2) (j ← js; [(i, j)]) st.
Proof.
  revert st. induction js as [|j js IH]; intros st; [done|].
  rewrite bind_cons. simpl.
  destruct (body i j st); simpl; [apply IH | done | done].
Qed.

Lemma for_each_nested {A B S : Type} (body : A → B → S → outcome S)
    (rows : list A) (js : list B) (st : S) :
  for_each (λ i, for_each (body i) js) rows st
  = for_each (λ c, body c.1 c.2) (i ← rows; j ← js; [(i, j)]) st.
Proof.
  revert st. induction rows as [|i rows IH]; intros st; [done|].
  rewrite bind_cons, for_each_app. simpl. rewrite for_each_row.
  destruct (for_each _ (js ≫= _) st); simpl; [apply IH | done | done].
Qed.

Section Loops.

Context (usb u2b : Z → Z → byte).

(** The nested loops visit the grid positions in row-major order. *)
Lemma decode_loop_flat (h : QoiHeader) (st : State) :
  decode_loop usb u2b h st = run_cells usb u2b (positions h) st.
Proof.
  unfold decode_loop, run_cells, positions.
  apply (for_each_nested (loop_body usb u2b)).
Qed.

Lemma run_cells_app (xs ys : list (Z * Z)) (st : State) :
  run_cells usb u2b (xs ++ ys) st
  = (st' ← run_cells usb u2b xs st; run_cells usb u2b ys st').
Proof. apply for_each_app. Qed.

Lemma elem_of_positions (h : QoiHeader) (i j : Z) :
  (i, j) ∈ positions h ↔ (0 ≤ i < height h ∧ 0 ≤ j < width h).
Proof.
  unfold positions. rewrite list_elem_of_bind. split.
  - intros (i' & Hj & Hi). apply list_elem_of_bind in Hj as (j' & Hc & Hj).
    apply list_elem_of_singleton in Hc as [= -> ->].
    apply elem_of_seqZ in Hi, Hj. lia.
  - intros [Hi Hj]. exists i. split; [|apply elem_of_seqZ; lia].
    apply list_elem_of_bind. exists j. split; [|apply elem_of_seqZ; lia].
    by apply list_elem_of_singleton.
Qed.

Lemma length_positions (h : QoiHeader) :
  0 ≤ width h → 0 ≤ height h →
  length (positions h) = Z.to_nat (width h * height h).
Proof.
  intros Hw Hh. unfold positions.
  assert (Hrow : ∀ i : Z, length (j ← seqZ 0 (width h); [(i, j)]) = Z.to_nat (width h)).
  { intros i. rewrite <- (length_seqZ 0 (width h)).
    induction (seqZ 0 (width h)) as [|j js IH]; [done|].
    by rewrite bind_cons, length_app, IH. }
  assert (Hall : ∀ rows : list Z,
    length (i ← rows; j ← seqZ 0 (width h); [(i, j)])
    = (length rows * Z.to_nat (width h))%nat).
  { induction rows as [|i rows IH]; [done|].
    rewrite bind_cons, length_app, Hrow, IH. simpl. lia. }
  rewrite Hall, length_seqZ. rewrite Z2Nat.inj_mul by lia. lia.
Qed.

Lemma positions_in_bounds (h : QoiHeader) (img : Image.t) (i j : Z) :
  fits h img → (i, j) ∈ positions h → in_bounds img i j.
Proof.
  intros [Hw Hlen Hw0 Hh0 H32] Hc. apply elem_of_positions in Hc as [Hi Hj].
  unfold in_bounds, Image.offset. rewrite Hw, Hlen.
  assert (0 ≤ i * width h + j < width h * height h) by nia.
  unfold u32. rewrite Z.mod_small by lia. lia.
Qed.

Lemma fits_set (h : QoiHeader) (img img' : Image.t) (i j : Z) (val : Pixel) :
  Image.set img i j val = Some img' → fits h img → fits h img'.
Proof.
  intros Hset [Hw Hlen Hw0 Hh0 H32]. constructor; try done.
  - by rewrite (set_width _ _ _ _ _ Hset).
  - by rewrite (set_length _ _ _ _ _ Hset).
Qed.

Lemma wf_initial (in0 : list byte) (decoded0 : Image.t) :
  wf_state (initial in0 decoded0).
Proof.
  constructor; unfold initial, memory, last_pix, run_length.
  - apply length_replicate.
  - apply Forall_replicate. unfold wf_pixel; simpl; lia.
  - unfold wf_pixel; simpl; lia.
  - lia.
Qed.

(** Running the loop body over cells of the buffer never stops early. *)
Lemma run_cells_total (cells : list (Z * Z)) (st : State) :
  wf_state st →
  Forall (λ c, in_bounds (decoded st) c.1 c.2) cells →
  ∃ st', run_cells usb u2b cells st = Ok st'.
Proof.
  revert st. induction cells as [|[i j] cells IH]; intros st Hst Hall.
  { by exists st. }
  apply Forall_cons in Hall as [Hb Hall]. simpl in Hb.
  destruct (loop_body_total usb u2b i j st Hst Hb) as [st1 H1].
  destruct (loop_body_Ok usb u2b i j st st1 Hst H1) as (Hst1 & Hset & _).
  destruct (IH st1 Hst1) as [st' H'].
  { eapply Forall_impl; [exact Hall|]. intros [i' j'] Hb'. simpl in *.
    by apply (in_bounds_set _ _ _ _ _ i' j' Hset). }
  exists st'. unfold run_cells in *. simpl. by rewrite H1.
Qed.

Lemma run_cells_Ok (h : QoiHeader) (cells : list (Z * Z)) (st st' : State) :
  wf_state st → run_cells usb u2b cells st = Ok st' →
  wf_state st' ∧ (fits h (decoded st) → fits h (decoded st')).
Proof.
  revert st. induction cells as [|[i j] cells IH]; intros st Hst.
  { by intros [= <-]. }
  unfold run_cells. simpl.
  destruct (loop_body usb u2b i j st) as [st1| |] eqn:H1; simpl; try discriminate.
  intros H'.
  destruct (loop_body_Ok usb u2b i j st st1 Hst H1) as (Hst1 & Hset & _).
  destruct (IH st1 Hst1 H') as [Hst' Hfits]. split; [done|].
  intros Hf. apply Hfits. by apply (fits_set h _ _ _ _ _ Hset).
Qed.

(** No tag byte reaches the [else] branch of line 136. *)
Lemma loop_body_not_Exit (i j : Z) (st : State) (sb j' i' : Z) :
  loop_body usb u2b i j st ≠ Exit sb j' i'.
Proof.
  unfold loop_body. destruct (negb (run_length st =? 0)).
  - by destruct (Image.set _ _ _ _).
  - destruct (read (input st) _) as [starting_byte in1].
    pose proof (chunk_of_known starting_byte) as Hk.
    unfold decode_chunk.
    destruct (chunk_of starting_byte); try done; simpl;
      repeat (destruct (read _ _)); simpl; by destruct (Image.set _ _ _ _).
Qed.

Lemma run_cells_not_Exit (cells : list (Z * Z)) (st : State) (sb j' i' : Z) :
  run_cells usb u2b cells st ≠ Exit sb j' i'.
Proof.
  revert st. induction cells as [|[i j] cells IH]; intros st; [done|].
  unfold run_cells. simpl.
  pose proof (loop_body_not_Exit i j st sb j' i') as Hne.
  destruct (loop_body usb u2b i j st) as [st1| |]; simpl; [apply IH | done | done].
Qed.

Lemma do_decode_image_not_Exit (h : QoiHeader) (in0 : list byte)
    (decoded0 : Image.t) (sb j' i' : Z) :
  do_decode_image usb u2b h in0 decoded0 ≠ Exit sb j' i'.
Proof.
  unfold do_decode_image. rewrite decode_loop_flat.
  pose proof (run_cells_not_Exit (positions h) (initial in0 decoded0) sb j' i')
    as Hne.
  destruct (run_cells _ _ _ _); simpl;
    [discriminate | intros [= -> -> ->]; by apply Hne | discriminate].
Qed.

(** On an image built for the header the two loops run to completion. *)
Lemma decode_loop_total (h : QoiHeader) (in0 : list byte) (decoded0 : Image.t) :
  fits h decoded0 →
  ∃ st, decode_loop usb u2b h (initial in0 decoded0) = Ok st
        ∧ wf_state st ∧ fits h (decoded st).
Proof.
  intros Hf. rewrite decode_loop_flat.
  destruct (run_cells_total (positions h) (initial in0 decoded0)) as [st Hst].
  { apply wf_initial. }
  { apply Forall_forall. intros [i j] Hc. simpl.
    by apply (positions_in_bounds h). }
  exists st. split; [done|].
  destruct (run_cells_Ok h _ _ _ (wf_initial in0 decoded0) Hst) as [? Hfits].
  split; [done | by apply Hfits].
Qed.

End Loops.

(** ** Truncated streams and unknown tags *)

Section Errors.

Context (usb u2b : Z → Z → byte).





(** C9, as the code has it: every byte is the tag of one of the six
    operations, so no stream takes the decoder to the unknown-chunk
    exit, the only place that reports a byte and a position. *)
Theorem unknown_chunk_unreachable :
  (∀ c : byte, chunk_of (byte_val c) ≠ UnknownChunk)
  ∧ ∀ (h : QoiHeader) (in0 : list byte) (decoded0 : Image.t) (sb j i : Z),
      do_decode_image usb u2b h in0 decoded0 ≠ Exit sb j i.
Proof.
  split; [intros c; apply chunk_of_known|].
  intros. apply do_decode_image_not_Exit.
Qed.

End Errors.

Lemma fits_blank (w h : Z) :
  0 ≤ w < 2 ^ 32 → 0 ≤ h < 2 ^ 32 → w * h < 2 ^ 32 → fits (header w h) (blank w h).
Proof.
  intros Hw Hh H32. constructor; simpl; try done.
  rewrite length_fmap, length_seq. unfold u32. by rewrite Z.mod_small by lia.
Qed.



(** C9 fails on the code: there is no stream on which decoding ends in the
    unknown-chunk error. *)
Lemma no_unknown_chunk_error :
  ¬ ∃ (usb u2b : Z → Z → byte) (h : QoiHeader) (in0 : list byte)
      (decoded0 : Image.t) (sb j i : Z),
      do_decode_image usb u2b h in0 decoded0 = Exit sb j i.
Proof.
  intros (usb & u2b & h & in0 & decoded0 & sb & j & i & H).
  by apply (do_decode_image_not_Exit usb u2b h in0 decoded0 sb j i).
Qed.

(** ** Runs *)

Section Runs.

Context (usb u2b : Z → Z → byte).

Lemma set_keeps (img img' : Image.t) (i j : Z) (p : Pixel) (i' j' : Z) :
  Image.set img i j p = Some img' →
  Image.get img i' j' = Some p → Image.get img' i' j' = Some p.
Proof.
  intros Hset Hget.
  destruct (decide (Image.offset img i' j' = Image.offset img i j)) as [Heq|Hne].
  - by apply (get_set_same_offset _ _ _ _ _ _ _ Hset).
  - by rewrite (get_set_ne _ _ _ _ _ _ _ Hset Hne).
Qed.

(** While a run is pending, each position takes a copy of [last_pix] and
    one unit of the run length; the stream and the pixel cache are not
    touched. *)
Lemma replay_cells (cells : list (Z * Z)) (st : State) :
  0 ≤ run_length st < 64 →
  Z.of_nat (length cells) ≤ run_length st →
  Forall (λ c, in_bounds (decoded st) c.1 c.2) cells →
  ∃ st', run_cells usb u2b cells st = Ok st'
    ∧ input st' = input st
    ∧ run_length st' = run_length st - Z.of_nat (length cells)
    ∧ memory st' = memory st
    ∧ last_pix st' = last_pix st
    ∧ (∀ i j, (i, j) ∈ cells → Image.get (decoded st') i j = Some (last_pix st))
    ∧ (∀ i j, Image.get (decoded st) i j = Some (last_pix st) →
              Image.get (decoded st') i j = Some (last_pix st))
    ∧ (∀ i j, (∀ c, c ∈ cells →
                 Image.offset (decoded st) c.1 c.2 ≠ Image.offset (decoded st) i j) →
              Image.get (decoded st') i j = Image.get (decoded st) i j)
    ∧ Image.width (decoded st') = Image.width (decoded st).
Proof.
  revert st. induction cells as [|[i0 j0] cells IH]; intros st Hrl Hlen Hall.
  { exists st. simpl. split_and!; try done; try lia.
    intros i j Hc. by apply elem_of_nil in Hc. }
  apply Forall_cons in Hall as [Hb Hall]. simpl in Hb, Hlen.
  assert (Hnz : run_length st ≠ 0) by lia.
  pose proof (loop_body_in_run usb u2b i0 j0 st Hnz) as H1.
  pose proof (set_in_bounds _ _ _ (last_pix st) Hb) as Hset.
  rewrite Hset in H1. simpl in H1.
  rewrite u32_small in H1 by lia.
  set (st1 := mkState _ _ _ _ _) in H1.
  destruct (IH st1) as (st' & Hrun & Hin & Hrl' & Hmem & Hlp & Hfill & Hkeep & Hframe & Hw).
  { simpl. lia. }
  { simpl. lia. }
  { eapply Forall_impl; [exact Hall|]. intros [i' j'] Hb'. simpl in *.
    by apply (in_bounds_set _ _ _ _ _ i' j' Hset). }
  exists st'. unfold run_cells in *. simpl. rewrite H1. simpl.
  split; [done|]. simpl in *.
  split_and!; try done; try lia.
  - intros i j Hc. apply elem_of_cons in Hc as [[= -> ->]|Hc].
    + apply Hkeep. by apply (get_set_eq _ _ _ _ _ Hset).
    + by apply Hfill.
  - intros i j Hget. apply Hkeep. by apply (set_keeps _ _ _ _ _ _ _ Hset).
  - intros i j Hne. rewrite Hframe.
    + apply (get_set_ne _ _ _ _ _ _ _ Hset).
      intros Heq. by apply (Hne (i0, j0)); [apply elem_of_cons; left|].
    + intros c Hc. unfold Image.offset. simpl.
      apply (Hne c). apply elem_of_cons. by right.
Qed.

(** A QOI_OP_RUN chunk with field [v], over at most [v + 1] positions. *)
Lemma run_chunk_cells (cells : list (Z * Z)) (st : State) (tag : byte)
    (rest : list byte) :
  run_length st = 0 →
  input st = tag :: rest →
  Z.land (Z.shiftr (byte_val tag) 6) 3 = 3 →
  Z.land (byte_val tag) 63 ≤ 61 →
  cells ≠ [] →
  Z.of_nat (length cells) ≤ Z.land (byte_val tag) 63 + 1 →
  Forall (λ c, in_bounds (decoded st) c.1 c.2) cells →
  ∃ st', run_cells usb u2b cells st = Ok st'
    ∧ input st' = rest
    ∧ run_length st' = Z.land (byte_val tag) 63 + 1 - Z.of_nat (length cells)
    ∧ memory st' = memory st
    ∧ last_pix st' = last_pix st
    ∧ (∀ i j, (i, j) ∈ cells → Image.get (decoded st') i j = Some (last_pix st))
    ∧ (∀ i j, (∀ c, c ∈ cells →
                 Image.offset (decoded st) c.1 c.2 ≠ Image.offset (decoded st) i j) →
              Image.get (decoded st') i j = Image.get (decoded st) i j).
Proof.
  intros Hrl Hin Htag Hv Hne Hlen Hall.
  destruct cells as [|[i0 j0] cells]; [done|]. clear Hne.
  apply Forall_cons in Hall as [Hb Hall]. simpl in Hb, Hlen.
  pose proof (land_63_range (byte_val tag)) as Hv0.
  pose proof (loop_body_tag usb u2b i0 j0 st tag rest Hrl Hin) as H1.
  unfold decode_chunk in H1. rewrite (chunk_of_RUN _ Htag Hv) in H1. simpl in H1.
  pose proof (set_in_bounds _ _ _ (last_pix st) Hb) as Hset.
  rewrite Hset in H1. simpl in H1.
  rewrite (u32_small (_ + 1)) in H1 by lia.
  rewrite u32_small in H1 by lia.
  set (st1 := mkState _ _ _ _ _) in H1.
  destruct (replay_cells cells st1)
    as (st' & Hrun & Hin' & Hrl' & Hmem & Hlp & Hfill & Hkeep & Hframe & Hw).
  { simpl. lia. }
  { simpl. lia. }
  { eapply Forall_impl; [exact Hall|]. intros [i' j'] Hb'. simpl in *.
    by apply (in_bounds_set _ _ _ _ _ i' j' Hset). }
  exists st'. unfold run_cells in *. simpl. rewrite H1. simpl.
  split; [done|]. simpl in *.
  split_and!; try done; try lia.
  - intros i j Hc. apply elem_of_cons in Hc as [[= -> ->]|Hc].
    + apply Hkeep. by apply (get_set_eq _ _ _ _ _ Hset).
    + by apply Hfill.
  - intros i j Hne. rewrite Hframe.
    + apply (get_set_ne _ _ _ _ _ _ _ Hset).
      intros Heq. by apply (Hne (i0, j0)); [apply elem_of_cons; left|].
    + intros c Hc. unfold Image.offset. simpl.
      apply (Hne c). apply elem_of_cons. by right.
Qed.

(** C4, as the code has it: when the grid has room for them, a
    QOI_OP_RUN chunk with field [v] (0 to 61) fills [v + 1] positions,
    the one where the tag is read and the [v] after it, with [last_pix];
    over these positions only the tag byte is taken from the stream, the
    run is still pending after any shorter prefix and over after the last
    one, and the pixel cache and [last_pix] are as before. *)
Theorem run_chunk (cells : list (Z * Z)) (st : State) (tag : byte)
    (rest : list byte) :
  run_length st = 0 →
  input st = tag :: rest →
  Z.land (Z.shiftr (byte_val tag) 6) 3 = 3 →
  let v := Z.land (byte_val tag) 63 in
  v ≤ 61 →
  Z.of_nat (length cells) = v + 1 →
  Forall (λ c, in_bounds (decoded st) c.1 c.2) cells →
  ∃ st', run_cells usb u2b cells st = Ok st'
    ∧ input st' = rest
    ∧ run_length st' = 0
    ∧ memory st' = memory st
    ∧ last_pix st' = last_pix st
    ∧ (∀ i j, (i, j) ∈ cells → Image.get (decoded st') i j = Some (last_pix st))
    ∧ (∀ i j, (∀ c, c ∈ cells →
                 Image.offset (decoded st) c.1 c.2 ≠ Image.offset (decoded st) i j) →
              Image.get (decoded st') i j = Image.get (decoded st) i j)
    ∧ (∀ cells1 cells2, cells = cells1 ++ cells2 → cells1 ≠ [] → cells2 ≠ [] →
         ∃ st1, run_cells usb u2b cells1 st = Ok st1
           ∧ input st1 = rest
           ∧ run_length st1 = Z.of_nat (length cells2)
           ∧ run_length st1 ≠ 0).
Proof.
  intros Hrl Hin Htag v Hv Hlen Hall.
  pose proof (land_63_range (byte_val tag)) as Hv0. fold v in Hv0.
  destruct (run_chunk_cells cells st tag rest Hrl Hin Htag Hv)
    as (st' & Hrun & Hin' & Hrl' & Hmem & Hlp & Hfill & Hframe).
  { intros ->. simpl in Hlen. lia. }
  { fold v. lia. }
  { done. }
  exists st'. fold v in Hrl'. split_and!; try done; try lia.
  intros cells1 cells2 -> Hne1 Hne2.
  rewrite length_app in Hlen. apply Forall_app in Hall as [Hall1 _].
  assert (length cells2 ≠ 0%nat) by by destruct cells2.
  destruct (run_chunk_cells cells1 st tag rest Hrl Hin Htag Hv Hne1)
    as (st1 & Hrun1 & Hin1 & Hrl1 & _).
  { fold v. lia. }
  { done. }
  exists st1. fold v in Hrl1. split_and!; try done; lia.
Qed.

(** C10: when the positions left in the grid are fewer than the [v + 1]
    of a QOI_OP_RUN chunk, the decode fills them with [last_pix] and
    returns normally after [width * height] positions; the rest of the
    run length is dropped with the other locals. *)
Theorem run_truncated_at_grid_end (h : QoiHeader) (in0 : list byte)
    (decoded0 : Image.t) (pre cells : list (Z * Z)) (st : State) (tag : byte)
    (rest : list byte) :
  fits h decoded0 →
  positions h = pre ++ cells →
  cells ≠ [] →
  run_cells usb u2b pre (initial in0 decoded0) = Ok st →
  run_length st = 0 →
  input st = tag :: rest →
  Z.land (Z.shiftr (byte_val tag) 6) 3 = 3 →
  let v := Z.land (byte_val tag) 63 in
  v ≤ 61 →
  Z.of_nat (length cells) < v + 1 →
  ∃ st', decode_loop usb u2b h (initial in0 decoded0) = Ok st'
    ∧ do_decode_image usb u2b h in0 decoded0 = Ok (rest, decoded st')
    ∧ length (pre ++ cells) = Z.to_nat (width h * height h)
    ∧ fits h (decoded st')
    ∧ (∀ i j, (i, j) ∈ cells → Image.get (decoded st') i j = Some (last_pix st))
    ∧ run_length st' = v + 1 - Z.of_nat (length cells)
    ∧ 0 < run_length st'.
Proof.
  intros Hf Hpos Hne Hpre Hrl Hin Htag v Hv Hlen.
  destruct (run_cells_Ok usb u2b h pre _ _ (wf_initial in0 decoded0) Hpre)
    as [Hst Hfits].
  specialize (Hfits Hf).
  destruct (run_chunk_cells cells st tag rest Hrl Hin Htag Hv Hne)
    as (st' & Hrun & Hin' & Hrl' & Hmem & Hlp & Hfill & Hframe).
  { fold v. lia. }
  { apply Forall_forall. intros [i j] Hc. simpl.
    apply (positions_in_bounds h); [done|]. rewrite Hpos.
    apply elem_of_app. by right. }
  assert (Hloop : decode_loop usb u2b h (initial in0 decoded0) = Ok st').
  { rewrite decode_loop_flat, Hpos, run_cells_app, Hpre. exact Hrun. }
  exists st'. fold v in Hrl'. split_and!; try done; try lia.
  - unfold do_decode_image. rewrite Hloop. simpl. by rewrite Hin'.
  - rewrite <- Hpos. apply length_positions; apply Hf.
  - destruct (run_cells_Ok usb u2b h cells _ _ Hst Hrun) as [_ Hfits'].
    by apply Hfits'.
Qed.

End Runs.

(** ** The decoder's invariant *)

Section Invariant.

Context (usb u2b : Z → Z → byte).

Lemma latest_nil (slot : nat) : latest [] slot = mkPixel 0 0 0 0.
Proof. done. Qed.

Lemma latest_snoc (log : list Pixel) (p : Pixel) (slot : nat) :
  latest (log ++ [p]) slot
  = if decide (Z.to_nat (qoi_pix_hash p) = slot) then p else latest log slot.
Proof.
  unfold latest. rewrite filter_app, filter_cons, filter_nil.
  case_decide; [by rewrite last_snoc | by rewrite app_nil_r].
Qed.

Lemma history_cons (i j : Z) (cells : list (Z * Z)) (st st1 : State) :
  loop_body usb u2b i j st = Ok st1 →
  history usb u2b ((i, j) :: cells) st
  = (if records (chunk_at usb i j st) then [last_pix st1] else [])
      ++ history usb u2b cells st1.
Proof. intros H1. simpl. by rewrite H1. Qed.

(** Every pixel of the history has 8-bit channels. *)
Lemma history_wf (cells : list (Z * Z)) (st : State) :
  wf_state st → Forall wf_pixel (history usb u2b cells st).
Proof.
  revert st. induction cells as [|[i j] cells IH]; intros st Hst; simpl; [done|].
  destruct (loop_body usb u2b i j st) as [st1| |] eqn:H1; [|done|done].
  destruct (loop_body_Ok usb u2b i j st st1 Hst H1) as (Hst1 & _).
  apply Forall_app. split; [|by apply IH].
  destruct (records _); [|done]. apply Forall_singleton. apply Hst1.
Qed.

(** The pixel cache after a run of the loop body: each slot holds the
    most recent recorded pixel that hashes to it. *)
Lemma cache_invariant (cells : list (Z * Z)) (st st' : State) (log : list Pixel) :
  wf_state st →
  (∀ slot, (slot < 64)%nat → memory st !! slot = Some (latest log slot)) →
  run_cells usb u2b cells st = Ok st' →
  ∀ slot, (slot < 64)%nat →
    memory st' !! slot = Some (latest (log ++ history usb u2b cells st) slot).
Proof.
  revert st log. induction cells as [|[i j] cells IH]; intros st log Hst Hinv.
  { intros [= <-] slot Hslot. simpl. rewrite app_nil_r. by apply Hinv. }
  unfold run_cells. simpl.
  destruct (loop_body usb u2b i j st) as [st1| |] eqn:H1; simpl; try discriminate.
  intros H' slot Hslot.
  destruct (loop_body_Ok usb u2b i j st st1 Hst H1) as (Hst1 & _ & Hmem).
  rewrite app_assoc.
  apply (IH st1 _ Hst1); [|done|done].
  intros s Hs. rewrite Hmem.
  destruct (records (chunk_at usb i j st)).
  - rewrite latest_snoc. case_decide as Hd.
    + subst s. apply list_lookup_insert_eq.
      by rewrite (wf_memory_length st Hst).
    + rewrite list_lookup_insert_ne by done. by apply Hinv.
  - rewrite app_nil_r. by apply Hinv.
Qed.

Lemma initial_cache (in0 : list byte) (decoded0 : Image.t) (slot : nat) :
  (slot < 64)%nat →
  memory (initial in0 decoded0) !! slot = Some (latest [] slot).
Proof. intros Hslot. unfold initial, memory. by apply lookup_replicate_2. Qed.

(** C1: at every position [(i, j)] of a decode, once its pixel is
    written, [last_pix] is the pixel of that position; every slot of the
    pixel cache holds the most recent pixel, among those produced so far
    by QOI_OP_RGB, QOI_OP_RGBA, QOI_OP_DIFF and QOI_OP_LUMA chunks, that
    hashes to it, in particular slot [hash(P)] for each such pixel [P];
    and a QOI_OP_INDEX chunk, a QOI_OP_RUN chunk or a position inside a
    run leaves the cache as it was. *)
Theorem decode_invariant (h : QoiHeader) (in0 : list byte) (decoded0 : Image.t)
    (pre post : list (Z * Z)) (i j : Z) :
  fits h decoded0 →
  positions h = pre ++ (i, j) :: post →
  ∃ st1 st,
    run_cells usb u2b pre (initial in0 decoded0) = Ok st1
    ∧ loop_body usb u2b i j st1 = Ok st
    ∧ let log := history usb u2b (pre ++ [(i, j)]) (initial in0 decoded0) in
      Image.get (decoded st) i j = Some (last_pix st)
      ∧ (∀ slot, (slot < 64)%nat → memory st !! slot = Some (latest log slot))
      ∧ (∀ P, P ∈ log →
           memory st !! Z.to_nat (qoi_pix_hash P)
           = Some (latest log (Z.to_nat (qoi_pix_hash P))))
      ∧ (records (chunk_at usb i j st1) = true →
           last log = Some (last_pix st)
           ∧ memory st !! Z.to_nat (qoi_pix_hash (last_pix st)) = Some (last_pix st))
      ∧ (chunk_at usb i j st1 = Some QOI_OP_INDEX
         ∨ chunk_at usb i j st1 = Some QOI_OP_RUN
         ∨ chunk_at usb i j st1 = None →
           memory st = memory st1).
Proof.
  intros Hf Hpos.
  pose proof (wf_initial in0 decoded0) as Hst0.
  destruct (run_cells_total usb u2b (pre ++ [(i, j)]) (initial in0 decoded0) Hst0)
    as [st Hrun].
  { apply Forall_forall. intros [i' j'] Hc. simpl.
    apply (positions_in_bounds h); [done|]. rewrite Hpos.
    apply elem_of_app in Hc as [Hc|Hc]; apply elem_of_app; [by left | right].
    apply list_elem_of_singleton in Hc as ->. apply elem_of_cons. by left. }
  pose proof Hrun as Hsplit. rewrite run_cells_app in Hsplit.
  destruct (run_cells usb u2b pre (initial in0 decoded0)) as [st1| |] eqn:Hpre;
    simpl in Hsplit; try discriminate.
  assert (H1 : loop_body usb u2b i j st1 = Ok st).
  { unfold run_cells in Hsplit. simpl in Hsplit.
    by destruct (loop_body usb u2b i j st1). }
  clear Hsplit. exists st1, st. split; [done|]. split; [done|]. intros log.
  destruct (run_cells_Ok usb u2b h pre _ _ Hst0 Hpre) as [Hst1 _].
  destruct (loop_body_Ok usb u2b i j st1 st Hst1 H1) as (Hst & Hset & Hmem).
  assert (Hinv : ∀ slot, (slot < 64)%nat → memory st !! slot = Some (latest log slot)).
  { intros slot Hslot.
    apply (cache_invariant _ _ _ [] Hst0 (initial_cache in0 decoded0) Hrun slot Hslot). }
  split; [by apply (get_set_eq _ _ _ _ _ Hset)|].
  split; [done|].
  split.
  { intros P HP. apply Hinv. apply qoi_pix_hash_slot.
    exact (proj1 (Forall_forall _ _) (history_wf _ _ Hst0) P HP). }
  split.
  { intros Hrec. rewrite Hmem, Hrec. split.
    - unfold log. clear Hrun Hinv log Hpos. revert Hpre.
      generalize (initial in0 decoded0) as s0. clear Hst0.
      induction pre as [|[i' j'] pre IH]; intros s0.
      + intros [= ->]. simpl. by rewrite H1, Hrec.
      + unfold run_cells. simpl.
        destruct (loop_body usb u2b i' j' s0) as [s1| |]; simpl; try discriminate.
        intros Hpre. rewrite last_app. by rewrite (IH s1 Hpre).
    - apply list_lookup_insert_eq. rewrite (wf_memory_length st1 Hst1).
      apply qoi_pix_hash_slot. apply Hst. }
  intros Hc. rewrite Hmem. by destruct Hc as [-> | [-> | ->]].
Qed.

End Invariant.

(** ** The theorems at sample inputs *)

Lemma wf_sample_state (cached lp : Pixel) (s : list byte) (img : Image.t) :
  wf_pixel cached → wf_pixel lp → wf_state (sample_state cached lp s img).
Proof.
  intros Hc Hlp. constructor; unfold sample_state, memory, last_pix, run_length.
  - rewrite length_insert. apply length_replicate.
  - apply Forall_insert; [|done]. apply Forall_replicate. unfold wf_pixel; simpl; lia.
  - done.
  - lia.
Qed.

Lemma wf_pixel_sample (r0 g0 b0 a0 : Z) :
  0 ≤ r0 < 256 → 0 ≤ g0 < 256 → 0 ≤ b0 < 256 → 0 ≤ a0 < 256 →
  wf_pixel (mkPixel r0 g0 b0 a0).
Proof. by unfold wf_pixel. Qed.

Lemma in_bounds_blank (w h i j : Z) :
  0 ≤ i < h → 0 ≤ j < w → w * h < 2 ^ 32 → in_bounds (blank w h) i j.
Proof.
  intros Hi Hj H32.
  apply (positions_in_bounds (header w h)); [apply fits_blank; nia|].
  apply elem_of_positions. simpl. lia.
Qed.

Lemma rgb_chunk_witness :
  wf_state (sample_state (mkPixel 0 0 0 0) (mkPixel 9 8 7 100)
              [xfe; x01; x02; x03; x55] (blank 2 2))
  ∧ in_bounds (blank 2 2) 0 1
  ∧ ∃ st', loop_body zero_bytes zero_bytes 0 1
             (sample_state (mkPixel 0 0 0 0) (mkPixel 9 8 7 100)
                [xfe; x01; x02; x03; x55] (blank 2 2)) = Ok st'
      ∧ last_pix st' = mkPixel 1 2 3 100
      ∧ a (last_pix st') = 100
      ∧ Image.get (decoded st') 0 1 = Some (mkPixel 1 2 3 100)
      ∧ memory st'
        = <[Z.to_nat (qoi_pix_hash (mkPixel 1 2 3 100)) := mkPixel 1 2 3 100]>
            (<[5%nat := mkPixel 0 0 0 0]> (replicate 64 (mkPixel 0 0 0 0)))
      ∧ memory st' !! Z.to_nat (qoi_pix_hash (mkPixel 1 2 3 100))
        = Some (mkPixel 1 2 3 100)
      ∧ input st' = [x55].
Proof.
  assert (Hst : wf_state (sample_state (mkPixel 0 0 0 0) (mkPixel 9 8 7 100)
                            [xfe; x01; x02; x03; x55] (blank 2 2))).
  { apply wf_sample_state; apply wf_pixel_sample; lia. }
  assert (Hb : in_bounds (blank 2 2) 0 1) by (apply in_bounds_blank; lia).
  split; [exact Hst|]. split; [exact Hb|].
  exact (rgb_chunk zero_bytes zero_bytes 0 1 _ x01 x02 x03 [x55] Hst eq_refl eq_refl Hb).
Defined.

Lemma diff_chunk_witness :
  wf_state (sample_state (mkPixel 0 0 0 0) (mkPixel 1 0 200 255) [x40] (blank 1 1))
  ∧ Z.land (Z.shiftr (byte_val x40) 6) 3 = 1
  ∧ in_bounds (blank 1 1) 0 0
  ∧ ((-2 ≤ Z.land (Z.shiftr (byte_val x40) 4) 3 - 2 ≤ 1
      ∧ -2 ≤ Z.land (Z.shiftr (byte_val x40) 2) 3 - 2 ≤ 1
      ∧ -2 ≤ Z.land (byte_val x40) 3 - 2 ≤ 1)
     ∧ ∃ st', loop_body zero_bytes zero_bytes 0 0
                (sample_state (mkPixel 0 0 0 0) (mkPixel 1 0 200 255) [x40] (blank 1 1))
              = Ok st'
         ∧ last_pix st' = mkPixel 255 254 198 255
         ∧ Image.get (decoded st') 0 0 = Some (mkPixel 255 254 198 255)
         ∧ memory st'
           = <[Z.to_nat (qoi_pix_hash (mkPixel 255 254 198 255)) := mkPixel 255 254 198 255]>
               (<[5%nat := mkPixel 0 0 0 0]> (replicate 64 (mkPixel 0 0 0 0)))
         ∧ memory st' !! Z.to_nat (qoi_pix_hash (mkPixel 255 254 198 255))
           = Some (mkPixel 255 254 198 255)
         ∧ input st' = []
         ∧ (1 = 1 → Z.land (Z.shiftr (byte_val x40) 4) 3 = 0 → r (last_pix st') = 255)).
Proof.
  assert (Hst : wf_state (sample_state (mkPixel 0 0 0 0) (mkPixel 1 0 200 255) [x40]
                            (blank 1 1))).
  { apply wf_sample_state; apply wf_pixel_sample; lia. }
  assert (Hb : in_bounds (blank 1 1) 0 0) by (apply in_bounds_blank; lia).
  split; [exact Hst|]. split; [reflexivity|]. split; [exact Hb|].
  exact (diff_chunk zero_bytes zero_bytes 0 0 _ x40 [] Hst eq_refl eq_refl eq_refl Hb).
Defined.

Lemma luma_chunk_witness :
  wf_state (sample_state (mkPixel 0 0 0 0) (mkPixel 0 1 2 255) [xa0; x12; x07] (blank 1 1))
  ∧ Z.land (Z.shiftr (byte_val xa0) 6) 3 = 2
  ∧ in_bounds (blank 1 1) 0 0
  ∧ ((-32 ≤ Z.land (byte_val xa0) 63 - 32 ≤ 31
      ∧ -8 ≤ Z.land (Z.shiftr (byte_val x12) 4) 15 - 8 ≤ 7
      ∧ -8 ≤ Z.land (byte_val x12) 15 - 8 ≤ 7)
     ∧ ∃ st', loop_body zero_bytes zero_bytes 0 0
                (sample_state (mkPixel 0 0 0 0) (mkPixel 0 1 2 255) [xa0; x12; x07]
                   (blank 1 1))
              = Ok st'
         ∧ last_pix st' = mkPixel 249 1 252 255
         ∧ Image.get (decoded st') 0 0 = Some (mkPixel 249 1 252 255)
         ∧ memory st'
           = <[Z.to_nat (qoi_pix_hash (mkPixel 249 1 252 255)) := mkPixel 249 1 252 255]>
               (<[5%nat := mkPixel 0 0 0 0]> (replicate 64 (mkPixel 0 0 0 0)))
         ∧ memory st' !! Z.to_nat (qoi_pix_hash (mkPixel 249 1 252 255))
           = Some (mkPixel 249 1 252 255)
         ∧ input st' = [x07]).
Proof.
  assert (Hst : wf_state (sample_state (mkPixel 0 0 0 0) (mkPixel 0 1 2 255)
                            [xa0; x12; x07] (blank 1 1))).
  { apply wf_sample_state; apply wf_pixel_sample; lia. }
  assert (Hb : in_bounds (blank 1 1) 0 0) by (apply in_bounds_blank; lia).
  split; [exact Hst|]. split; [reflexivity|]. split; [exact Hb|].
  exact (luma_chunk zero_bytes zero_bytes 0 0 _ xa0 x12 [x07] Hst eq_refl eq_refl
           eq_refl Hb).
Defined.

Lemma index_chunk_witness :
  wf_state (sample_state (mkPixel 1 2 3 4) (mkPixel 0 0 0 255) [x05; x07] (blank 1 1))
  ∧ Z.land (Z.shiftr (byte_val x05) 6) 3 = 0
  ∧ in_bounds (blank 1 1) 0 0
  ∧ ∃ st' res, loop_body zero_bytes zero_bytes 0 0
                 (sample_state (mkPixel 1 2 3 4) (mkPixel 0 0 0 255) [x05; x07]
                    (blank 1 1))
               = Ok st'
      ∧ <[5%nat := mkPixel 1 2 3 4]> (replicate 64 (mkPixel 0 0 0 0)) !! 5%nat = Some res
      ∧ last_pix st' = res
      ∧ Image.get (decoded st') 0 0 = Some res
      ∧ memory st' = <[5%nat := mkPixel 1 2 3 4]> (replicate 64 (mkPixel 0 0 0 0))
      ∧ (∀ slot : nat,
           memory st' !! slot
           = <[5%nat := mkPixel 1 2 3 4]> (replicate 64 (mkPixel 0 0 0 0)) !! slot)
      ∧ input st' = [x07].
Proof.
  assert (Hst : wf_state (sample_state (mkPixel 1 2 3 4) (mkPixel 0 0 0 255)
                            [x05; x07] (blank 1 1))).
  { apply wf_sample_state; apply wf_pixel_sample; lia. }
  assert (Hb : in_bounds (blank 1 1) 0 0) by (apply in_bounds_blank; lia).
  split; [exact Hst|]. split; [reflexivity|]. split; [exact Hb|].
  exact (index_chunk zero_bytes zero_bytes 0 0 _ x05 [x07] Hst eq_refl eq_refl
           eq_refl Hb).
Defined.

Lemma run_chunk_witness :
  Z.land (Z.shiftr (byte_val xfd) 6) 3 = 3
  ∧ Z.land (byte_val xfd) 63 = 61
  ∧ Z.of_nat (length (positions (header 31 2))) = 61 + 1
  ∧ Forall (λ c, in_bounds (blank 31 2) c.1 c.2) (positions (header 31 2))
  ∧ ∃ st', run_cells zero_bytes zero_bytes (positions (header 31 2))
             (initial [xfd; x07] (blank 31 2)) = Ok st'
      ∧ input st' = [x07]
      ∧ run_length st' = 0
      ∧ memory st' = replicate 64 (mkPixel 0 0 0 0)
      ∧ last_pix st' = mkPixel 0 0 0 255
      ∧ (∀ i j, (i, j) ∈ positions (header 31 2) →
           Image.get (decoded st') i j = Some (mkPixel 0 0 0 255))
      ∧ (∀ i j, (∀ c, c ∈ positions (header 31 2) →
                   Image.offset (blank 31 2) c.1 c.2 ≠ Image.offset (blank 31 2) i j) →
                Image.get (decoded st') i j = Image.get (blank 31 2) i j)
      ∧ (∀ cells1 cells2, positions (header 31 2) = cells1 ++ cells2 →
           cells1 ≠ [] → cells2 ≠ [] →
           ∃ st1, run_cells zero_bytes zero_bytes cells1
                    (initial [xfd; x07] (blank 31 2)) = Ok st1
             ∧ input st1 = [x07]
             ∧ run_length st1 = Z.of_nat (length cells2)
             ∧ run_length st1 ≠ 0).
Proof.
  assert (Hv : Z.land (byte_val xfd) 63 ≤ 61) by (vm_compute; discriminate).
  assert (Hall : Forall (λ c, in_bounds (blank 31 2) c.1 c.2) (positions (header 31 2))).
  { apply Forall_forall. intros [i j] Hc.
    apply (positions_in_bounds (header 31 2)); [apply fits_blank; lia | exact Hc]. }
  split; [reflexivity|]. split; [reflexivity|]. split; [reflexivity|].
  split; [exact Hall|].
  exact (run_chunk zero_bytes zero_bytes (positions (header 31 2))
           (initial [xfd; x07] (blank 31 2)) xfd [x07]
           eq_refl eq_refl eq_refl Hv eq_refl Hall).
Defined.

(** C4 fails on the code where the grid ends first: on a 2 by 2 grid
    a QOI_OP_RUN chunk with field 61 fills the four positions there are,
    not 62, and the decode returns with the next byte unread. *)
Lemma run_shorter_than_field :
  chunk_of (byte_val xfd) = QOI_OP_RUN
  ∧ Z.land (byte_val xfd) 63 = 61
  ∧ length (positions (header 2 2)) = 4%nat
  ∧ do_decode_image zero_bytes zero_bytes (header 2 2) [xfd; x07] (blank 2 2)
    = Ok ([x07], Image.mk (replicate 4 (mkPixel 0 0 0 255)) 2 2).
Proof. split_and!; reflexivity. Qed.

Lemma run_truncated_at_grid_end_witness :
  fits (header 2 2) (blank 2 2)
  ∧ positions (header 2 2) = [] ++ [(0, 0); (0, 1); (1, 0); (1, 1)]
  ∧ run_cells zero_bytes zero_bytes [] (initial [xfd; x07] (blank 2 2))
    = Ok (initial [xfd; x07] (blank 2 2))
  ∧ Z.land (Z.shiftr (byte_val xfd) 6) 3 = 3
  ∧ Z.land (byte_val xfd) 63 = 61
  ∧ ∃ st', decode_loop zero_bytes zero_bytes (header 2 2)
             (initial [xfd; x07] (blank 2 2)) = Ok st'
      ∧ do_decode_image zero_bytes zero_bytes (header 2 2) [xfd; x07] (blank 2 2)
        = Ok ([x07], decoded st')
      ∧ length ([] ++ [(0, 0); (0, 1); (1, 0); (1, 1)])
        = Z.to_nat (width (header 2 2) * height (header 2 2))
      ∧ fits (header 2 2) (decoded st')
      ∧ (∀ i j, (i, j) ∈ [(0, 0); (0, 1); (1, 0); (1, 1)] →
           Image.get (decoded st') i j = Some (mkPixel 0 0 0 255))
      ∧ run_length st' = 61 + 1 - 4
      ∧ 0 < run_length st'.
Proof.
  assert (Hf : fits (header 2 2) (blank 2 2)) by (apply fits_blank; lia).
  assert (Hne : [(0, 0); (0, 1); (1, 0); (1, 1)] ≠ @nil (Z * Z)) by discriminate.
  assert (Hv : Z.land (byte_val xfd) 63 ≤ 61) by (vm_compute; discriminate).
  assert (Hlen : Z.of_nat (length [(0, 0); (0, 1); (1, 0); (1, 1)])
                 < Z.land (byte_val xfd) 63 + 1) by reflexivity.
  split; [exact Hf|]. split; [reflexivity|]. split; [reflexivity|].
  split; [reflexivity|]. split; [reflexivity|].
  exact (run_truncated_at_grid_end zero_bytes zero_bytes (header 2 2) [xfd; x07]
           (blank 2 2) [] [(0, 0); (0, 1); (1, 0); (1, 1)]
           (initial [xfd; x07] (blank 2 2)) xfd [x07]
           Hf eq_refl Hne eq_refl eq_refl eq_refl eq_refl Hv Hlen).
Defined.

Lemma decode_invariant_witness :
  fits (header 2 1) (blank 2 1)
  ∧ positions (header 2 1) = [(0, 0)] ++ (0, 1) :: []
  ∧ ∃ st1 st,
      run_cells zero_bytes zero_bytes [(0, 0)]
        (initial [xfe; x01; x02; x03; x55] (blank 2 1)) = Ok st1
      ∧ loop_body zero_bytes zero_bytes 0 1 st1 = Ok st
      ∧ Image.get (decoded st) 0 1 = Some (last_pix st)
      ∧ (∀ slot, (slot < 64)%nat →
           memory st !! slot
           = Some (latest (history zero_bytes zero_bytes ([(0, 0)] ++ [(0, 1)])
                             (initial [xfe; x01; x02; x03; x55] (blank 2 1))) slot))
      ∧ (∀ P, P ∈ history zero_bytes zero_bytes ([(0, 0)] ++ [(0, 1)])
                    (initial [xfe; x01; x02; x03; x55] (blank 2 1)) →
           memory st !! Z.to_nat (qoi_pix_hash P)
           = Some (latest (history zero_bytes zero_bytes ([(0, 0)] ++ [(0, 1)])
                             (initial [xfe; x01; x02; x03; x55] (blank 2 1)))
                     (Z.to_nat (qoi_pix_hash P))))
      ∧ (records (chunk_at zero_bytes 0 1 st1) = true →
           last (history zero_bytes zero_bytes ([(0, 0)] ++ [(0, 1)])
                   (initial [xfe; x01; x02; x03; x55] (blank 2 1)))
           = Some (last_pix st)
           ∧ memory st !! Z.to_nat (qoi_pix_hash (last_pix st)) = Some (last_pix st))
      ∧ (chunk_at zero_bytes 0 1 st1 = Some QOI_OP_INDEX
         ∨ chunk_at zero_bytes 0 1 st1 = Some QOI_OP_RUN
         ∨ chunk_at zero_bytes 0 1 st1 = None →
           memory st = memory st1).
Proof.
  assert (Hf : fits (header 2 1) (blank 2 1)) by (apply fits_blank; lia).
  split; [exact Hf|]. split; [reflexivity|].
  exact (decode_invariant zero_bytes zero_bytes (header 2 1)
           [xfe; x01; x02; x03; x55] (blank 2 1) [(0, 0)] [] 0 1 Hf eq_refl).
Defined.

(** * Further properties *)

(** ** Byte order *)

Lemma land_255 (x : Z) : Z.land x 255 = x mod 256.
Proof. change 255 with (Z.ones 8). rewrite Z.land_ones; [reflexivity | lia]. Qed.

(** Bits that do not overlap add up. *)
Lemma lor_low_high (lo hi k : Z) :
  0 ≤ k → 0 ≤ lo < 2 ^ k → Z.lor lo (hi * 2 ^ k) = lo + hi * 2 ^ k.
Proof.
  intros Hk Hlo. rewrite <- Z.add_lor_land.
  assert (Hdisj : Z.land lo (hi * 2 ^ k) = 0); [|lia].
  apply Z.bits_inj'. intros n Hn. rewrite Z.land_spec, Z.bits_0.
  destruct (Z.lt_ge_cases n k) as [Hlt|Hge].
  - rewrite Z.mul_pow2_bits_low by done. apply andb_false_r.
  - destruct (decide (lo = 0)) as [->|Hnz]; [by rewrite Z.bits_0|].
    rewrite (Z.bits_above_log2 lo n); [done | lia |].
    assert (Z.log2 lo < k) by (apply Z.log2_lt_pow2; lia). lia.
Qed.

Lemma swap_bytes_sum (x : Z) :
  swap_bytes x
  = (x / 256 / 256 / 256) mod 256 + (x / 256 / 256) mod 256 * 256
    + (x / 256) mod 256 * 65536 + x mod 256 * 16777216.
Proof.
  unfold swap_bytes. rewrite !Z.shiftr_div_pow2, !land_255, !Z.shiftl_mul_pow2 by lia.
  change (2 ^ 0) with 1. rewrite Z.div_1_r, Z.mul_1_r.
  replace (x / 2 ^ 24) with (x / 256 / 256 / 256)
    by (rewrite !Z.div_div by lia; reflexivity).
  replace (x / 2 ^ 16) with (x / 256 / 256) by (rewrite !Z.div_div by lia; reflexivity).
  change (x / 2 ^ 8) with (x / 256).
  pose proof (Z.mod_pos_bound (x / 256 / 256 / 256) 256 ltac:(lia)) as H3.
  pose proof (Z.mod_pos_bound (x / 256 / 256) 256 ltac:(lia)) as H2.
  pose proof (Z.mod_pos_bound (x / 256) 256 ltac:(lia)) as H1.
  pose proof (Z.mod_pos_bound x 256 ltac:(lia)) as H0.
  rewrite !u32_small by lia.
  rewrite (lor_low_high _ _ 8) by lia.
  rewrite (lor_low_high _ _ 16) by lia.
  rewrite (lor_low_high _ _ 24) by lia.
  reflexivity.
Qed.

(** [swap_bytes] turns the four bytes of a [uint32_t] end for end: the
    value with bytes [b0], [b1], [b2], [b3] from the low end becomes the
    value with bytes [b3], [b2], [b1], [b0], again a [uint32_t]. *)
Theorem swap_bytes_reverses (b0 b1 b2 b3 : Z) :
  0 ≤ b0 < 256 → 0 ≤ b1 < 256 → 0 ≤ b2 < 256 → 0 ≤ b3 < 256 →
  swap_bytes (b0 + b1 * 2 ^ 8 + b2 * 2 ^ 16 + b3 * 2 ^ 24)
  = b3 + b2 * 2 ^ 8 + b1 * 2 ^ 16 + b0 * 2 ^ 24
  ∧ 0 ≤ swap_bytes (b0 + b1 * 2 ^ 8 + b2 * 2 ^ 16 + b3 * 2 ^ 24) < 2 ^ 32.
Proof.
  intros H0 H1 H2 H3. rewrite swap_bytes_sum.
  change (2 ^ 8) with 256. change (2 ^ 16) with 65536.
  change (2 ^ 24) with 16777216. change (2 ^ 32) with 4294967296.
  Z.div_mod_to_equations. lia.
Qed.

(** On [uint32_t] values [swap_bytes] is its own inverse. *)
Theorem swap_bytes_involutive (x : Z) :
  0 ≤ x < 2 ^ 32 → swap_bytes (swap_bytes x) = x.
Proof.
  intros Hx. rewrite (swap_bytes_sum (swap_bytes x)), (swap_bytes_sum x).
  change (2 ^ 32) with 4294967296 in Hx.
  Z.div_mod_to_equations. lia.
Qed.

(** ** Row-major order *)

Lemma bind_singleton_fmap {A B : Type} (f : A → B) (l : list A) :
  (x ← l; [f x]) = f <$> l.
Proof.
  induction l as [|x l IH]; [done|]. rewrite bind_cons, IH. reflexivity.
Qed.

Lemma rows_index (w : Z) (k : nat) (m : Z) :
  0 ≤ w →
  (λ c : Z * Z, c.1 * w + c.2) <$> (i ← seqZ m (Z.of_nat k); j ← seqZ 0 w; [(i, j)])
  = seqZ (m * w) (Z.of_nat k * w).
Proof.
  intros Hw. revert m. induction k as [|k IH]; intros m.
  { change (Z.of_nat 0) with 0. rewrite Z.mul_0_l.
    rewrite (seqZ_nil m 0), (seqZ_nil (m * w) 0) by lia. done. }
  rewrite (seqZ_cons m (Z.of_nat (S k))) by lia. rewrite bind_cons, fmap_app.
  replace (Z.pred (Z.of_nat (S k))) with (Z.of_nat k) by lia.
  rewrite IH. rewrite (bind_singleton_fmap (λ j, (m, j))), <- list_fmap_compose.
  change ((λ c : Z * Z, c.1 * w + c.2) ∘ (λ j, (m, j))) with (Z.add (m * w)).
  rewrite fmap_add_seqZ.
  replace (Z.of_nat (S k) * w) with (w + Z.of_nat k * w) by lia.
  rewrite seqZ_app by nia. f_equal; [f_equal; lia|]. f_equal. lia.
Qed.

(** The cells of the grid, numbered [i * width + j], come in the order
    0, 1, 2, ... *)
Lemma positions_index (h : QoiHeader) :
  0 ≤ width h → 0 ≤ height h →
  (λ c : Z * Z, c.1 * width h + c.2) <$> positions h = seqZ 0 (height h * width h).
Proof.
  intros Hw Hh. unfold positions.
  rewrite <- (Z2Nat.id (height h)) at 1 by done.
  rewrite rows_index by done. by rewrite Z2Nat.id by done.
Qed.

Lemma positions_lookup (h : QoiHeader) (k : nat) (c : Z * Z) :
  0 ≤ width h → 0 ≤ height h →
  positions h !! k = Some c → c.1 * width h + c.2 = Z.of_nat k.
Proof.
  intros Hw Hh Hc.
  assert (Hk : ((λ c : Z * Z, c.1 * width h + c.2) <$> positions h) !! k
               = Some (c.1 * width h + c.2)).
  { by rewrite list_lookup_fmap, Hc. }
  rewrite positions_index in Hk by done.
  apply lookup_seqZ in Hk. lia.
Qed.

Lemma positions_split (h : QoiHeader) (pre post : list (Z * Z)) (c : Z * Z) :
  0 ≤ width h → 0 ≤ height h →
  positions h = pre ++ c :: post →
  c.1 * width h + c.2 = Z.of_nat (length pre)
  ∧ (∀ c', c' ∈ pre → 0 ≤ c'.1 * width h + c'.2 < c.1 * width h + c.2)
  ∧ (∀ c', c' ∈ post → c.1 * width h + c.2 < c'.1 * width h + c'.2).
Proof.
  intros Hw Hh Hpos.
  assert (Hc : c.1 * width h + c.2 = Z.of_nat (length pre)).
  { apply (positions_lookup h); [done | done |].
    rewrite Hpos. apply list_lookup_middle. done. }
  split; [done|]. split.
  - intros c' Hin. apply list_elem_of_lookup in Hin as [k Hk].
    pose proof (lookup_lt_Some _ _ _ Hk) as Hlt.
    rewrite (positions_lookup h k c'); [lia | done | done |].
    rewrite Hpos. by rewrite lookup_app_l.
  - intros c' Hin. apply list_elem_of_lookup in Hin as [k Hk].
    rewrite (positions_lookup h (length pre + S k) c'); [lia | done | done |].
    rewrite Hpos. rewrite lookup_app_r by lia.
    replace (length pre + S k - length pre)%nat with (S k) by lia. done.
Qed.

Lemma positions_cover (h : QoiHeader) (k : nat) :
  0 ≤ width h → 0 ≤ height h → Z.of_nat k < width h * height h →
  ∃ c, positions h !! k = Some c ∧ c.1 * width h + c.2 = Z.of_nat k.
Proof.
  intros Hw Hh Hk.
  destruct (lookup_lt_is_Some_2 (positions h) k) as [c Hc].
  { rewrite length_positions by done. lia. }
  exists c. split; [done|]. by apply (positions_lookup h).
Qed.

(** Inside an image built for the header, the buffer offset of a grid
    cell is its row-major number. *)
Lemma offset_in_grid (h : QoiHeader) (img : Image.t) (i j : Z) :
  fits h img → 0 ≤ i * width h + j < width h * height h →
  Image.offset img i j = Z.to_nat (i * width h + j).
Proof.
  intros [Hw Hlen Hw0 Hh0 H32] Hc. unfold Image.offset. rewrite Hw.
  by rewrite u32_small by lia.
Qed.

(** ** The grid after a decode *)

Section Grid.

Context (usb u2b : Z → Z → byte).

Lemma run_cells_shape (cells : list (Z * Z)) (st st' : State) :
  wf_state st → run_cells usb u2b cells st = Ok st' →
  Image.width (decoded st') = Image.width (decoded st)
  ∧ length (Image.a (decoded st')) = length (Image.a (decoded st)).
Proof.
  revert st. induction cells as [|[i j] cells IH]; intros st Hst.
  { by intros [= <-]. }
  unfold run_cells. simpl.
  destruct (loop_body usb u2b i j st) as [st1| |] eqn:H1; simpl; try discriminate.
  intros H'.
  destruct (loop_body_Ok usb u2b i j st st1 Hst H1) as (Hst1 & Hset & _).
  destruct (IH st1 Hst1 H') as [Hw Hl].
  by rewrite Hw, Hl, (set_width _ _ _ _ _ Hset), (set_length _ _ _ _ _ Hset).
Qed.

(** A run of the loop body leaves alone the cells whose offset it does not
    visit. *)
Lemma run_cells_frame (cells : list (Z * Z)) (st st' : State) (k : nat) :
  wf_state st → run_cells usb u2b cells st = Ok st' →
  (∀ c, c ∈ cells → Image.offset (decoded st) c.1 c.2 ≠ k) →
  Image.a (decoded st') !! k = Image.a (decoded st) !! k.
Proof.
  revert st. induction cells as [|[i j] cells IH]; intros st Hst.
  { by intros [= <-]. }
  unfold run_cells. simpl.
  destruct (loop_body usb u2b i j st) as [st1| |] eqn:H1; simpl; try discriminate.
  intros H' Hne.
  destruct (loop_body_Ok usb u2b i j st st1 Hst H1) as (Hst1 & Hset & _).
  rewrite (IH st1 Hst1 H').
  - revert Hset. unfold Image.set. case_decide; [|discriminate]. intros [= <-]. simpl.
    apply list_lookup_insert_ne. apply (Hne (i, j)). apply elem_of_cons. by left.
  - intros c Hc. unfold Image.offset. rewrite (set_width _ _ _ _ _ Hset).
    apply (Hne c). apply elem_of_cons. by right.
Qed.

(** Every grid position keeps, to the end of the decode, the pixel that
    was emitted when the loops visited it: no later position is stored
    over it. *)
Theorem grid_keeps_pixels (h : QoiHeader) (in0 : list byte) (decoded0 : Image.t)
    (pre post : list (Z * Z)) (i j : Z) :
  fits h decoded0 →
  positions h = pre ++ (i, j) :: post →
  ∃ st rest img,
    run_cells usb u2b (pre ++ [(i, j)]) (initial in0 decoded0) = Ok st
    ∧ do_decode_image usb u2b h in0 decoded0 = Ok (rest, img)
    ∧ Image.get img i j = Some (last_pix st).
Proof.
  intros Hf Hpos.
  pose proof (wf_initial in0 decoded0) as Hst0.
  destruct (decode_loop_total usb u2b h in0 decoded0 Hf) as (st' & Hloop & Hst' & Hf').
  pose proof Hloop as Hrun. rewrite decode_loop_flat, Hpos in Hrun.
  replace (pre ++ (i, j) :: post) with ((pre ++ [(i, j)]) ++ post) in Hrun
    by by rewrite <- app_assoc.
  rewrite run_cells_app in Hrun.
  destruct (run_cells usb u2b (pre ++ [(i, j)]) (initial in0 decoded0))
    as [st| |] eqn:Hst; simpl in Hrun; try discriminate.
  exists st, (input st'), (decoded st'). split; [done|].
  split; [unfold do_decode_image; by rewrite Hloop|].
  destruct (run_cells_Ok usb u2b h _ _ _ Hst0 Hst) as [Hwf Hfits].
  specialize (Hfits Hf).
  (* the pixel is in the cell after its own iteration *)
  assert (Hget : Image.get (decoded st) i j = Some (last_pix st)).
  { rewrite run_cells_app in Hst.
    destruct (run_cells usb u2b pre (initial in0 decoded0)) as [st1| |] eqn:Hpre;
      simpl in Hst; try discriminate.
    destruct (run_cells_Ok usb u2b h _ _ _ Hst0 Hpre) as [Hwf1 _].
    unfold run_cells in Hst. simpl in Hst.
    destruct (loop_body usb u2b i j st1) as [st2| |] eqn:H1; simpl in Hst;
      try discriminate.
    injection Hst as ->.
    destruct (loop_body_Ok usb u2b i j st1 st Hwf1 H1) as (_ & Hset & _).
    by apply (get_set_eq _ _ _ _ _ Hset). }
  (* and the later iterations store elsewhere *)
  unfold Image.get in *.
  destruct (run_cells_shape post st st' Hwf Hrun) as [Hw _].
  replace (Image.offset (decoded st') i j) with (Image.offset (decoded st) i j)
    by (unfold Image.offset; by rewrite Hw).
  rewrite <- Hget. apply (run_cells_frame post st st' _ Hwf Hrun).
  intros c Hc.
  destruct (positions_split h pre post (i, j)) as (Hidx & Hpre & Hpost);
    [apply Hf | apply Hf | done |].
  specialize (Hpost c Hc). simpl in *.
  assert (Hin : c ∈ positions h).
  { rewrite Hpos. apply elem_of_app. right. apply elem_of_cons. by right. }
  destruct c as [i' j']. apply elem_of_positions in Hin as [Hi' Hj']. simpl in *.
  destruct Hf as [? ? ? ? ?].
  rewrite (offset_in_grid h _ i' j' Hfits) by nia.
  rewrite (offset_in_grid h _ i j Hfits) by nia. lia.
Qed.

End Grid.

(** ** The buffer handed to the decoder *)

Section Buffer.

Context (usb u2b : Z → Z → byte).

Lemma same_cursor_step (i j : Z) (st1 st2 st1' : State) :
  same_cursor st1 st2 → loop_body usb u2b i j st1 = Ok st1' →
  ∃ st2', loop_body usb u2b i j st2 = Ok st2'
    ∧ same_cursor st1' st2'
    ∧ Image.a (decoded st1') !! Image.offset (decoded st1) i j
      = Image.a (decoded st2') !! Image.offset (decoded st1) i j
    ∧ ∀ k, Image.a (decoded st1) !! k = Image.a (decoded st2) !! k →
           Image.a (decoded st1') !! k = Image.a (decoded st2') !! k.
Proof.
  destruct st1 as [m lp rl inp d1], st2 as [m2 lp2 rl2 inp2 d2].
  intros (Hm & Hlp & Hrl & Hin & Hw & Hlen). simpl in *. subst m2 lp2 rl2 inp2.
  assert (Hset : ∀ v, Image.set d2 i j v
    = (if decide (Image.offset d1 i j < length (Image.a d1))%nat
       then Some (Image.mk (<[Image.offset d1 i j := v]> (Image.a d2))
                           (Image.width d2) (Image.height d2))
       else None)).
  { intros v. unfold Image.set, Image.offset. by rewrite <- Hw, <- Hlen. }
  unfold loop_body. simpl.
  assert (Hstore : ∀ v k, Image.a d1 !! k = Image.a d2 !! k →
    <[Image.offset d1 i j := v]> (Image.a d1) !! k
    = <[Image.offset d1 i j := v]> (Image.a d2) !! k).
  { intros v k Hk. destruct (decide (Image.offset d1 i j = k)) as [<-|Hne].
    - destruct (decide (Image.offset d1 i j < length (Image.a d1))%nat).
      + rewrite !list_lookup_insert_eq by lia. done.
      + rewrite !list_insert_ge by lia. done.
    - by rewrite !list_lookup_insert_ne. }
  destruct (negb (rl =? 0)).
  - rewrite Hset. unfold Image.set. case_decide as Hb; simpl; [|discriminate].
    intros [= <-]. eexists. split; [reflexivity|]. simpl.
    split; [unfold same_cursor; simpl; rewrite !length_insert; by split_and!|].
    split; [rewrite !list_lookup_insert_eq by lia; done|].
    intros k. apply Hstore.
  - destruct (read inp _) as [sb in1].
    change (decode_chunk u2b i j (mkState m lp rl inp d2) sb in1)
      with (decode_chunk u2b i j (mkState m lp rl inp d1) sb in1).
    destruct (decode_chunk u2b i j _ sb in1) as [[[[res m'] rl'] in']| |]; simpl;
      try discriminate.
    rewrite Hset. unfold Image.set. case_decide as Hb; simpl; [|discriminate].
    intros [= <-]. eexists. split; [reflexivity|]. simpl.
    split; [unfold same_cursor; simpl; rewrite !length_insert; by split_and!|].
    split; [rewrite !list_lookup_insert_eq by lia; done|].
    intros k. apply Hstore.
Qed.

Lemma same_cursor_run (cells : list (Z * Z)) (st1 st2 st1' : State) :
  same_cursor st1 st2 → run_cells usb u2b cells st1 = Ok st1' →
  ∃ st2', run_cells usb u2b cells st2 = Ok st2'
    ∧ same_cursor st1' st2'
    ∧ (∀ c, c ∈ cells →
         Image.a (decoded st1') !! Image.offset (decoded st1) c.1 c.2
         = Image.a (decoded st2') !! Image.offset (decoded st1) c.1 c.2)
    ∧ ∀ k, Image.a (decoded st1) !! k = Image.a (decoded st2) !! k →
           Image.a (decoded st1') !! k = Image.a (decoded st2') !! k.
Proof.
  revert st1 st2. induction cells as [|[i j] cells IH]; intros st1 st2 Hsim.
  { intros [= <-]. exists st2. split_and!; try done.
    intros c Hc. by apply elem_of_nil in Hc. }
  unfold run_cells. simpl.
  destruct (loop_body usb u2b i j st1) as [s1| |] eqn:H1; simpl; try discriminate.
  intros H'.
  destruct (same_cursor_step i j st1 st2 s1 Hsim H1) as (s2 & H2 & Hsim' & Hcell & Hkeep).
  destruct (IH s1 s2 Hsim' H') as (st2' & Hrun2 & Hsim'' & Hcells & Hkeep').
  exists st2'. rewrite H2. simpl. split; [done|]. split; [done|].
  assert (Hoff : ∀ i' j', Image.offset (decoded s1) i' j' = Image.offset (decoded st1) i' j').
  { intros i' j'. unfold Image.offset.
    assert (Image.width (decoded s1) = Image.width (decoded st1)); [|congruence].
    revert H1. unfold loop_body.
    destruct (negb _); [|destruct (read _ _); destruct (decode_chunk _ _ _ _ _ _)
      as [[[[? ?] ?] ?]| |]; simpl; try discriminate];
      (destruct (Image.set _ _ _ _) as [d|] eqn:Hs; simpl; [|discriminate]);
      intros [= <-]; simpl; by apply (set_width _ _ _ _ _ Hs). }
  split.
  - intros c Hc. apply elem_of_cons in Hc as [->|Hc]; simpl.
    + by apply Hkeep'.
    + rewrite <- Hoff. by apply Hcells.
  - intros k Hk. apply Hkeep'. by apply Hkeep.
Qed.

(** The grid returned by a decode does not depend on what the buffer held
    before: [new Pixel[n]] leaves it uninitialised, and every cell is
    stored over. *)
Theorem decode_ignores_buffer (h : QoiHeader) (in0 : list byte)
    (decoded1 decoded2 : Image.t) :
  fits h decoded1 → fits h decoded2 →
  ∃ rest img1 img2,
    do_decode_image usb u2b h in0 decoded1 = Ok (rest, img1)
    ∧ do_decode_image usb u2b h in0 decoded2 = Ok (rest, img2)
    ∧ Image.a img1 = Image.a img2.
Proof.
  intros Hf1 Hf2.
  destruct (decode_loop_total usb u2b h in0 decoded1 Hf1) as (st1 & Hloop1 & Hwf1 & Hf1').
  pose proof Hloop1 as Hrun1. rewrite decode_loop_flat in Hrun1.
  destruct (same_cursor_run (positions h) (initial in0 decoded1) (initial in0 decoded2) st1)
    as (st2 & Hrun2 & Hsim & Hcells & _); [|done|].
  { unfold same_cursor. simpl. split_and!; try done.
    - by rewrite (fits_width _ _ Hf1), (fits_width _ _ Hf2).
    - by rewrite (fits_length _ _ Hf1), (fits_length _ _ Hf2). }
  exists (input st1), (decoded st1), (decoded st2).
  destruct Hsim as (_ & _ & _ & Hin & _ & Hlen).
  unfold do_decode_image. rewrite !decode_loop_flat, Hrun1, Hrun2. simpl.
  split; [done|]. split; [by rewrite Hin|].
  apply list_eq. intros k.
  destruct (decide (k < length (Image.a (decoded st1)))%nat) as [Hk|Hk].
  - rewrite (fits_length _ _ Hf1') in Hk.
    destruct (positions_cover h k) as (c & Hc & Hidx); [apply Hf1 | apply Hf1 | lia |].
    assert (Hin' : c ∈ positions h) by (apply list_elem_of_lookup; by exists k).
    specialize (Hcells c Hin'). simpl in Hcells.
    rewrite (offset_in_grid h _ c.1 c.2 Hf1) in Hcells by lia.
    rewrite Hidx, Nat2Z.id in Hcells. done.
  - rewrite !lookup_ge_None_2; [done | lia | lia].
Qed.

End Buffer.

(** ** Dimensions whose product does not fit *)

Section Overflow.

Context (usb u2b : Z → Z → byte).

Lemma run_cells_Undefined (pre post : list (Z * Z)) (i j : Z) (st st1 : State) :
  wf_state st →
  run_cells usb u2b pre st = Ok st1 →
  ¬ in_bounds (decoded st1) i j →
  run_cells usb u2b (pre ++ (i, j) :: post) st = Undefined.
Proof.
  intros Hst Hpre Hout. rewrite run_cells_app, Hpre. simpl.
  destruct (run_cells_Ok usb u2b (header 0 0) _ _ _ Hst Hpre) as [Hst1 _].
  unfold run_cells. simpl.
  destruct (loop_body_spec usb u2b i j st1 Hst1) as (res & m & rl & in' & -> & _).
  unfold Image.set. by rewrite decide_False.
Qed.

(** When [width * height] does not fit in a [uint32_t], the buffer built
    by [Image] is shorter than the grid and the decoder stores outside
    it, whatever the stream. *)
Theorem decode_overflows_buffer (h : QoiHeader) (in0 : list byte)
    (fresh : nat → Pixel) :
  0 ≤ width h < 2 ^ 32 → 0 ≤ height h < 2 ^ 32 →
  2 ^ 32 ≤ width h * height h →
  (length (Image.a (Image.new (width h) (height h) fresh))
   < Z.to_nat (width h * height h))%nat
  ∧ do_decode_image usb u2b h in0 (Image.new (width h) (height h) fresh) = Undefined.
Proof.
  intros Hw Hh Hov.
  set (img := Image.new (width h) (height h) fresh).
  set (L := (width h * height h) mod 2 ^ 32).
  assert (HL : 0 ≤ L < 2 ^ 32) by (apply Z.mod_pos_bound; lia).
  assert (Hlen : length (Image.a img) = Z.to_nat L).
  { unfold img, Image.new. simpl. by rewrite length_fmap, length_seq. }
  split; [rewrite Hlen; lia|].
  destruct (positions_cover h (Z.to_nat L)) as (c & Hc & Hidx); [lia | lia | lia |].
  rewrite Z2Nat.id in Hidx by lia.
  pose proof (take_drop_middle _ _ _ Hc) as Hpos. symmetry in Hpos.
  destruct (positions_split h _ _ c ltac:(lia) ltac:(lia) Hpos) as (_ & Hpre & _).
  pose proof (wf_initial in0 img) as Hst0.
  destruct (run_cells_total usb u2b (take (Z.to_nat L) (positions h)) (initial in0 img) Hst0)
    as [st1 Hrun].
  { apply Forall_forall. intros c' Hc'. specialize (Hpre c' Hc').
    unfold in_bounds. change (decoded (initial in0 img)) with img.
    rewrite Hlen. unfold Image.offset. change (Image.width img) with (width h).
    rewrite u32_small by lia. lia. }
  destruct (run_cells_shape usb u2b _ _ _ Hst0 Hrun) as [Hw1 Hl1].
  unfold do_decode_image. rewrite decode_loop_flat, Hpos.
  destruct c as [i j].
  rewrite (run_cells_Undefined _ _ i j _ st1 Hst0 Hrun); [done|].
  unfold in_bounds, Image.offset. rewrite Hw1, Hl1.
  change (decoded (initial in0 img)) with img. rewrite Hlen.
  change (Image.width img) with (width h). simpl in Hidx.
  rewrite Hidx, u32_small by lia. lia.
Qed.

(** A header with no row or no column: the decoder returns at once,
    having read nothing and stored nothing. *)
Theorem decode_empty_grid (h : QoiHeader) (in0 : list byte) (decoded0 : Image.t) :
  width h ≤ 0 ∨ height h ≤ 0 →
  do_decode_image usb u2b h in0 decoded0 = Ok (in0, decoded0).
Proof.
  intros Hz. unfold do_decode_image. rewrite decode_loop_flat.
  assert (Hnil : positions h = []); [|by rewrite Hnil].
  destruct (positions h) as [|[i j] l] eqn:Hpos; [done|].
  assert (Hin : (i, j) ∈ positions h) by (rewrite Hpos; apply elem_of_cons; by left).
  apply elem_of_positions in Hin. lia.
Qed.

End Overflow.

(** ** Tags, the stream and the pixel cache *)

(** The tag bytes by value: 0xFE and 0xFF are QOI_OP_RGB and QOI_OP_RGBA,
    and the others go by their range, so a QOI_OP_RUN never has field 62
    or 63. *)
Theorem tag_ranges (c : byte) :
  chunk_of (byte_val c)
  = (if byte_val c =? 254 then QOI_OP_RGB
     else if byte_val c =? 255 then QOI_OP_RGBA
     else if byte_val c <? 64 then QOI_OP_INDEX
     else if byte_val c <? 128 then QOI_OP_DIFF
     else if byte_val c <? 192 then QOI_OP_LUMA
     else QOI_OP_RUN)
  ∧ (chunk_of (byte_val c) = QOI_OP_RUN → Z.land (byte_val c) 63 ≤ 61).
Proof.
  destruct c; (split; [reflexivity | vm_compute; congruence]).
Qed.

Section Stream.

Context (usb u2b : Z → Z → byte).

Lemma read_consumes (s : list byte) (d : Z) :
  ∃ c, s = c ++ (read s d).2 ∧ (length c ≤ 1)%nat.
Proof.
  destruct s as [|x s]; simpl; [exists [] | exists [x]]; simpl; (split; [done | lia]).
Qed.

Lemma decode_chunk_consumes (i j : Z) (st : State) (sb : Z) (in1 : list byte)
    (res : Pixel) (m : list Pixel) (rl : Z) (in' : list byte) :
  decode_chunk u2b i j st sb in1 = Ok (res, m, rl, in') →
  ∃ c, in1 = c ++ in' ∧ (length c ≤ 4)%nat.
Proof.
  unfold decode_chunk. destruct (chunk_of sb); simpl.
  - destruct (read_consumes in1 0) as (c1 & H1 & L1).
    destruct (read in1 0) as [v1 in2]. simpl in *.
    destruct (read_consumes in2 0) as (c2 & H2 & L2).
    destruct (read in2 0) as [v2 in3]. simpl in *.
    destruct (read_consumes in3 0) as (c3 & H3 & L3).
    destruct (read in3 0) as [v3 in4]. simpl in *.
    intros [= <- <- <- <-]. exists (c1 ++ c2 ++ c3). subst in1 in2 in3.
    rewrite <- !app_assoc, !length_app. split; [done | lia].
  - destruct (read_consumes in1 0) as (c1 & H1 & L1).
    destruct (read in1 0) as [v1 in2]. simpl in *.
    destruct (read_consumes in2 0) as (c2 & H2 & L2).
    destruct (read in2 0) as [v2 in3]. simpl in *.
    destruct (read_consumes in3 0) as (c3 & H3 & L3).
    destruct (read in3 0) as [v3 in4]. simpl in *.
    destruct (read_consumes in4 255) as (c4 & H4 & L4).
    destruct (read in4 255) as [v4 in5]. simpl in *.
    intros [= <- <- <- <-]. exists (c1 ++ c2 ++ c3 ++ c4). subst in1 in2 in3 in4.
    rewrite <- !app_assoc, !length_app. split; [done | lia].
  - intros [= <- <- <- <-]. exists []. simpl. split; [done | lia].
  - intros [= <- <- <- <-]. exists []. simpl. split; [done | lia].
  - destruct (read_consumes in1 (byte_val (u2b i j))) as (c1 & H1 & L1).
    destruct (read in1 _) as [v1 in2]. simpl in *.
    intros [= <- <- <- <-]. exists c1. split; [done | lia].
  - intros [= <- <- <- <-]. exists []. simpl. split; [done | lia].
  - discriminate.
Qed.

Lemma loop_body_consumes (i j : Z) (st st' : State) :
  loop_body usb u2b i j st = Ok st' →
  ∃ c, input st = c ++ input st' ∧ (length c ≤ 5)%nat.
Proof.
  unfold loop_body. destruct (negb (run_length st =? 0)).
  - destruct (Image.set _ _ _ _); simpl; [|discriminate].
    intros [= <-]. exists []. simpl. split; [done | lia].
  - destruct (read_consumes (input st) (byte_val (usb i j))) as (c0 & H0 & L0).
    destruct (read (input st) _) as [sb in1]. simpl in *.
    destruct (decode_chunk u2b i j st sb in1) as [[[[res m] rl] in']| |] eqn:Hd;
      simpl; try discriminate.
    destruct (decode_chunk_consumes i j st sb in1 res m rl in' Hd) as (c & Hc & Lc).
    destruct (Image.set _ _ _ _); simpl; [|discriminate].
    intros [= <-]. simpl. exists (c0 ++ c). rewrite H0, Hc, <- app_assoc, length_app.
    split; [done | lia].
Qed.

Lemma run_cells_consumes (cells : list (Z * Z)) (st st' : State) :
  run_cells usb u2b cells st = Ok st' →
  ∃ c, input st = c ++ input st' ∧ (length c ≤ 5 * length cells)%nat.
Proof.
  revert st. induction cells as [|[i j] cells IH]; intros st.
  { intros [= <-]. exists []. simpl. split; [done | lia]. }
  unfold run_cells. simpl.
  destruct (loop_body usb u2b i j st) as [st1| |] eqn:H1; simpl; try discriminate.
  intros H'. destruct (loop_body_consumes i j st st1 H1) as (c1 & Hc1 & L1).
  destruct (IH st1 H') as (c & Hc & L).
  exists (c1 ++ c). rewrite Hc1, Hc, <- app_assoc, length_app. split; [done | lia].
Qed.

(** The decoder takes its bytes from the front of the stream, at most
    five for each grid position, and leaves the rest of the stream as it
    was. *)
Theorem decode_consumes_prefix (h : QoiHeader) (in0 : list byte)
    (decoded0 : Image.t) :
  fits h decoded0 →
  ∃ consumed rest img,
    do_decode_image usb u2b h in0 decoded0 = Ok (rest, img)
    ∧ in0 = consumed ++ rest
    ∧ Z.of_nat (length consumed) ≤ 5 * (width h * height h).
Proof.
  intros Hf.
  destruct (decode_loop_total usb u2b h in0 decoded0 Hf) as (st & Hloop & _).
  pose proof Hloop as Hrun. rewrite decode_loop_flat in Hrun.
  destruct (run_cells_consumes _ _ _ Hrun) as (c & Hc & L).
  exists c, (input st), (decoded st). unfold do_decode_image. rewrite Hloop. simpl.
  split; [done|]. split; [done|].
  rewrite length_positions in L by apply Hf.
  destruct Hf as [_ _ ? ? _]. nia.
Qed.

(** A QOI_OP_RGBA chunk (tag 0xFF and four more bytes) gives the pixel
    made of those four bytes, alpha included, whatever [last_pix] is; the
    pixel is written to the grid and stored in the pixel cache at its
    hash. *)
Theorem rgba_chunk (i j : Z) (st : State) (c_r c_g c_b c_a : byte)
    (rest : list byte) :
  wf_state st →
  run_length st = 0 →
  input st = xff :: c_r :: c_g :: c_b :: c_a :: rest →
  in_bounds (decoded st) i j →
  let res := mkPixel (byte_val c_r) (byte_val c_g) (byte_val c_b) (byte_val c_a) in
  ∃ st', loop_body usb u2b i j st = Ok st'
    ∧ last_pix st' = res
    ∧ Image.get (decoded st') i j = Some res
    ∧ memory st' = <[Z.to_nat (qoi_pix_hash res) := res]> (memory st)
    ∧ memory st' !! Z.to_nat (qoi_pix_hash res) = Some res
    ∧ run_length st' = 0
    ∧ input st' = rest.
Proof.
  intros Hst Hrl Hin Hb res.
  rewrite (loop_body_tag usb u2b i j st _ _ Hrl Hin).
  unfold decode_chunk. change (chunk_of (byte_val xff)) with QOI_OP_RGBA. simpl.
  fold res. rewrite (set_in_bounds _ _ _ res Hb). simpl.
  eexists. split; [reflexivity|]. simpl. split_and!; try done.
  - unfold Image.get, Image.offset. simpl. by apply list_lookup_insert_eq.
  - apply (recorded_lookup st res Hst).
    pose proof (byte_val_range c_r). pose proof (byte_val_range c_g).
    pose proof (byte_val_range c_b). pose proof (byte_val_range c_a).
    by unfold wf_pixel, res.
Qed.

(** During a decode, a QOI_OP_INDEX chunk with index [k] emits the most
    recent pixel, among those recorded so far by QOI_OP_RGB, QOI_OP_RGBA,
    QOI_OP_DIFF and QOI_OP_LUMA chunks, whose hash is [k], and
    [{0,0,0,0}] when there is none. *)
Theorem index_emits_latest (h : QoiHeader) (in0 : list byte) (decoded0 : Image.t)
    (pre post : list (Z * Z)) (i j : Z) (st1 : State) (tag : byte)
    (rest : list byte) :
  fits h decoded0 →
  positions h = pre ++ (i, j) :: post →
  run_cells usb u2b pre (initial in0 decoded0) = Ok st1 →
  run_length st1 = 0 →
  input st1 = tag :: rest →
  Z.land (Z.shiftr (byte_val tag) 6) 3 = 0 →
  ∃ st, loop_body usb u2b i j st1 = Ok st
    ∧ last_pix st
      = latest (history usb u2b pre (initial in0 decoded0))
               (Z.to_nat (Z.land (byte_val tag) 63))
    ∧ Image.get (decoded st) i j = Some (last_pix st).
Proof.
  intros Hf Hpos Hpre Hrl Hin Htag.
  pose proof (wf_initial in0 decoded0) as Hst0.
  destruct (run_cells_Ok usb u2b h pre _ _ Hst0 Hpre) as [Hst1 Hfits].
  specialize (Hfits Hf).
  assert (Hb : in_bounds (decoded st1) i j).
  { apply (positions_in_bounds h); [done|]. rewrite Hpos.
    apply elem_of_app. right. apply elem_of_cons. by left. }
  pose proof (land_63_range (byte_val tag)) as Hk.
  assert (Hslot : (Z.to_nat (Z.land (byte_val tag) 63) < 64)%nat) by lia.
  pose proof (cache_invariant usb u2b pre _ _ [] Hst0
                (initial_cache in0 decoded0) Hpre _ Hslot) as Hcache.
  simpl in Hcache.
  rewrite (loop_body_tag usb u2b i j st1 _ _ Hrl Hin).
  unfold decode_chunk. rewrite (chunk_of_INDEX _ Htag). simpl.
  rewrite (list_lookup_total_correct _ _ _ Hcache).
  rewrite (set_in_bounds _ _ _ _ Hb). simpl.
  eexists. split; [reflexivity|]. simpl. split; [done|].
  unfold Image.get, Image.offset. simpl. by apply list_lookup_insert_eq.
Qed.

End Stream.

(** ** The image as an array *)

(** An image whose dimensions fit is a [height] by [width] array: a cell
    of the grid can be stored and read back, a store leaves the other
    cells of the grid and the dimensions as they were, and a fresh cell
    holds whatever the buffer held. *)
Theorem image_array (w h : Z) (fresh : nat → Pixel) (row col : Z) (val : Pixel) :
  0 ≤ w → 0 ≤ h → w * h < 2 ^ 32 →
  0 ≤ row < h → 0 ≤ col < w →
  Image.get (Image.new w h fresh) row col = Some (fresh (Z.to_nat (row * w + col)))
  ∧ ∃ img', Image.set (Image.new w h fresh) row col val = Some img'
      ∧ Image.get img' row col = Some val
      ∧ (∀ row' col', 0 ≤ row' < h → 0 ≤ col' < w → (row', col') ≠ (row, col) →
           Image.get img' row' col' = Image.get (Image.new w h fresh) row' col')
      ∧ Image.get_width img' = w
      ∧ Image.get_height img' = h.
Proof.
  intros Hw Hh H32 Hrow Hcol.
  set (img := Image.new w h fresh).
  assert (Hoff : ∀ r' c', 0 ≤ r' < h → 0 ≤ c' < w →
            Image.offset img r' c' = Z.to_nat (r' * w + c')
            ∧ 0 ≤ r' * w + c' < w * h).
  { intros r' c' Hr' Hc'. unfold Image.offset. simpl.
    assert (0 ≤ r' * w + c' < w * h) by nia. by rewrite u32_small by lia. }
  assert (Hlen : length (Image.a img) = Z.to_nat (w * h)).
  { simpl. rewrite length_fmap, length_seq. by rewrite u32_small by lia. }
  destruct (Hoff row col Hrow Hcol) as [Ho Hr].
  split.
  { unfold Image.get. rewrite Ho. simpl. rewrite list_lookup_fmap.
    rewrite lookup_seq_lt; [done|]. rewrite u32_small by lia. lia. }
  assert (Hb : in_bounds img row col) by (unfold in_bounds; rewrite Ho, Hlen; lia).
  pose proof (set_in_bounds img row col val Hb) as Hset.
  eexists. split; [exact Hset|]. split_and!; try done.
  - by apply (get_set_eq _ _ _ _ _ Hset).
  - intros row' col' Hrow' Hcol' Hne.
    apply (get_set_ne _ _ _ _ _ _ _ Hset).
    destruct (Hoff row' col' Hrow' Hcol') as [Ho' Hr']. rewrite Ho, Ho'.
    intros Heq. apply Hne.
    assert (row' * w + col' = row * w + col) by lia.
    assert (row' = row) by nia. subst row'. f_equal. lia.
Qed.

(** ** The program *)

Lemma byte_val_of_Z (z : Z) : byte_val (byte_of_Z z) = z mod 256.
Proof.
  unfold byte_of_Z, byte_val.
  pose proof (Z.mod_pos_bound z 256 ltac:(lia)) as Hz.
  destruct (Byte.of_N (Z.to_N (z mod 256))) as [c|] eqn:Hc; simpl.
  - apply Byte.to_of_N in Hc. rewrite Hc. lia.
  - apply Byte.of_N_None_iff in Hc. lia.
Qed.

Lemma byte_of_Z_val (c : byte) : byte_of_Z (byte_val c) = c.
Proof.
  unfold byte_of_Z. pose proof (byte_val_range c) as Hc.
  rewrite Z.mod_small by done. unfold byte_val. rewrite N2Z.id.
  by rewrite Byte.of_to_N.
Qed.

Lemma read_bytes_enough (n : nat) (input dest : list byte) :
  (n ≤ length input)%nat → read_bytes n input dest = (take n input, drop n input).
Proof.
  intros Hn. unfold read_bytes. f_equal.
  rewrite drop_ge; [apply app_nil_r|]. rewrite length_take. lia.
Qed.

Lemma swap_bytes_le_value (c3 c2 c1 c0 : byte) :
  swap_bytes (le_value [c3; c2; c1; c0]) = big_endian c3 c2 c1 c0.
Proof.
  unfold big_endian. simpl le_value.
  pose proof (byte_val_range c3). pose proof (byte_val_range c2).
  pose proof (byte_val_range c1). pose proof (byte_val_range c0).
  rewrite swap_bytes_sum.
  change (2 ^ 8) with 256. change (2 ^ 16) with 65536. change (2 ^ 24) with 16777216.
  Z.div_mod_to_equations. lia.
Qed.

Lemma big_endian_range (c3 c2 c1 c0 : byte) : 0 ≤ big_endian c3 c2 c1 c0 < 2 ^ 32.
Proof.
  unfold big_endian.
  pose proof (byte_val_range c3). pose proof (byte_val_range c2).
  pose proof (byte_val_range c1). pose proof (byte_val_range c0). lia.
Qed.

Section Program.

Context (usb u2b : Z → Z → byte) (stdout_isatty : bool)
  (open : list byte → option (list byte)) (uninit_header : QoiHeader)
  (fresh : nat → Pixel) (allocates : Z → bool).

Lemma read_header_full (m : list byte) (w3 w2 w1 w0 h3 h2 h1 h0 c s : byte)
    (data : list byte) :
  length m = 4%nat →
  read_header uninit_header (m ++ [w3; w2; w1; w0; h3; h2; h1; h0; c; s] ++ data)
  = (mkQoiHeader m (big_endian w3 w2 w1 w0) (big_endian h3 h2 h1 h0)
                 (byte_val c) (byte_val s), data).
Proof.
  intros Hm. unfold read_header.
  rewrite read_bytes_enough by (rewrite length_app; lia).
  rewrite take_app_length' by done. rewrite drop_app_length' by done.
  rewrite read_bytes_enough by (simpl; lia). simpl take. simpl drop.
  rewrite read_bytes_enough by (simpl; lia). simpl take. simpl drop.
  simpl read. by rewrite !swap_bytes_le_value.
Qed.

Lemma read_header_magic (m0 m1 m2 m3 : byte) (content : list byte) :
  magic (read_header uninit_header (m0 :: m1 :: m2 :: m3 :: content)).1
  = [m0; m1; m2; m3].
Proof.
  unfold read_header. rewrite read_bytes_enough by (simpl; lia).
  simpl take. simpl drop. cbv beta iota. rewrite take_0, drop_0.
  destruct (read_bytes 4 content _) as [wb in2].
  destruct (read_bytes 4 in2 _) as [hb in3].
  destruct (read in3 _) as [ch in4]. by destruct (read in4 _) as [cs in5].
Qed.

Lemma fits_new (h : QoiHeader) :
  0 ≤ width h < 2 ^ 32 → 0 ≤ height h < 2 ^ 32 → width h * height h < 2 ^ 32 →
  fits h (Image.new (width h) (height h) fresh).
Proof.
  intros Hw Hh H32. constructor; simpl; try done.
  rewrite length_fmap, length_seq. unfold u32. by rewrite Z.mod_small by lia.
Qed.





(** The header is read as four bytes of magic, the width and the height
    most significant byte first, and two single bytes: fourteen bytes in
    all, and both dimensions are [uint32_t] values. *)
Theorem header_is_big_endian (m : list byte) (w3 w2 w1 w0 h3 h2 h1 h0 c s : byte)
    (data : list byte) :
  length m = 4%nat →
  read_header uninit_header (m ++ [w3; w2; w1; w0; h3; h2; h1; h0; c; s] ++ data)
  = (mkQoiHeader m (big_endian w3 w2 w1 w0) (big_endian h3 h2 h1 h0)
                 (byte_val c) (byte_val s), data)
  ∧ 0 ≤ big_endian w3 w2 w1 w0 < 2 ^ 32
  ∧ 0 ≤ big_endian h3 h2 h1 h0 < 2 ^ 32.
Proof.
  intros Hm. split; [by apply read_header_full|].
  split; apply big_endian_range.
Qed.


(** A file whose first four bytes are not the magic is refused: the
    program returns -1 with a message on the error stream and writes
    nothing to standard output, whatever follows those bytes. *)
Theorem main_rejects_bad_magic (argv0 argv1 : list byte) (more : list (list byte))
    (name : list byte) (m0 m1 m2 m3 : byte) (content : list byte) :
  last (argv0 :: argv1 :: more) = Some name →
  stdout_isatty = false ∨ take 2 (argv1 ++ [x00]) = text "-f" →
  open name = Some (m0 :: m1 :: m2 :: m3 :: content) →
  [m0; m1; m2; m3] ≠ text "qoif" →
  main usb u2b stdout_isatty open uninit_header fresh allocates
    (argv0 :: argv1 :: more)
  = Finished (mkProcess (-1) [] (text "Bad qoi header (incorrect magic)!" ++ endl)).
Proof.
  intros Hlast Hguard Hopen Hbad. unfold main.
  assert (Hg : stdout_isatty
               && negb (bool_decide (take 2 (argv1 ++ [x00]) = text "-f")) = false).
  { destruct Hguard as [-> | Heq]; [done|].
    rewrite bool_decide_eq_true_2 by done. apply andb_false_r. }
  assert (Hin0 : default [] (last (argv0 :: argv1 :: more) ≫= open)
                 = m0 :: m1 :: m2 :: m3 :: content).
  { rewrite Hlast. simpl mbind. by rewrite Hopen. }
  rewrite Hg, Hin0.
  pose proof (read_header_magic m0 m1 m2 m3 content) as Hmagic.
  destruct (read_header uninit_header _) as [header in1]. simpl in Hmagic.
  rewrite bool_decide_eq_false_2; [done|]. by rewrite Hmagic.
Qed.

End Program.

(** ** The indeterminate bytes *)

Section Indeterminate.

Context (usb u2b usb' u2b' : Z → Z → byte).

Lemma decode_chunk_same (i j : Z) (st : State) (sb : Z) (in1 : list byte)
    (res : Pixel) (m : list Pixel) (rl : Z) (in' : list byte) :
  decode_chunk u2b i j st sb in1 = Ok (res, m, rl, in') → in' ≠ [] →
  decode_chunk u2b' i j st sb in1 = Ok (res, m, rl, in').
Proof.
  unfold decode_chunk. destruct (chunk_of sb); try done.
  destruct in1 as [|x in1]; simpl; [|done].
  by intros [= <- <- <- <-].
Qed.

Lemma loop_body_same (i j : Z) (st st' : State) :
  loop_body usb u2b i j st = Ok st' → input st' ≠ [] →
  loop_body usb' u2b' i j st = Ok st'.
Proof.
  unfold loop_body. destruct (negb (run_length st =? 0)); [done|].
  destruct (input st) as [|x s] eqn:Hin; simpl.
  - destruct (decode_chunk u2b i j st _ []) as [[[[res m] rl] in']| |] eqn:Hd;
      simpl; try discriminate.
    destruct (decode_chunk_consumes u2b i j st _ [] res m rl in' Hd) as (c & Hc & _).
    destruct (Image.set _ _ _ _); simpl; [|discriminate].
    intros [= <-]. simpl. by destruct c, in'.
  - destruct (decode_chunk u2b i j st _ s) as [[[[res m] rl] in']| |] eqn:Hd;
      simpl; try discriminate.
    destruct (Image.set _ _ _ _) eqn:Hset; simpl; [|discriminate].
    intros [= <-]. simpl. intros Hne.
    rewrite (decode_chunk_same i j st _ s res m rl in' Hd Hne). simpl.
    by rewrite Hset.
Qed.

Lemma run_cells_same (cells : list (Z * Z)) (st st' : State) :
  run_cells usb u2b cells st = Ok st' → input st' ≠ [] →
  run_cells usb' u2b' cells st = Ok st'.
Proof.
  revert st. induction cells as [|[i j] cells IH]; intros st; [done|].
  unfold run_cells. simpl.
  destruct (loop_body usb u2b i j st) as [st1| |] eqn:H1; simpl; try discriminate.
  intros H' Hne.
  destruct (run_cells_consumes usb u2b cells st1 st' H') as (c & Hc & _).
  rewrite (loop_body_same i j st st1 H1); [simpl; by apply IH|].
  rewrite Hc. by destruct c, (input st').
Qed.

(** The bytes that [starting_byte] and [second_byte] hold before they
    are read matter only to a stream that runs out: when the decode ends
    with bytes left in the stream, every other content of these
    variables gives the same grid and the same rest. *)
Theorem decode_ignores_uninit (h : QoiHeader) (in0 : list byte)
    (decoded0 : Image.t) :
  fits h decoded0 →
  ∃ rest img,
    do_decode_image usb u2b h in0 decoded0 = Ok (rest, img)
    ∧ (rest ≠ [] → do_decode_image usb' u2b' h in0 decoded0 = Ok (rest, img)).
Proof.
  intros Hf.
  destruct (decode_loop_total usb u2b h in0 decoded0 Hf) as (st & Hloop & _).
  exists (input st), (decoded st). unfold do_decode_image. rewrite Hloop.
  split; [done|]. intros Hne.
  rewrite decode_loop_flat in *.
  by rewrite (run_cells_same _ _ _ Hloop Hne).
Qed.

End Indeterminate.

(** ** The further properties at sample inputs *)

Lemma swap_bytes_reverses_witness :
  (0 ≤ 120 < 256 ∧ 0 ≤ 86 < 256 ∧ 0 ≤ 52 < 256 ∧ 0 ≤ 18 < 256)
  ∧ swap_bytes (120 + 86 * 2 ^ 8 + 52 * 2 ^ 16 + 18 * 2 ^ 24)
    = 18 + 52 * 2 ^ 8 + 86 * 2 ^ 16 + 120 * 2 ^ 24
  ∧ 0 ≤ swap_bytes (120 + 86 * 2 ^ 8 + 52 * 2 ^ 16 + 18 * 2 ^ 24) < 2 ^ 32.
Proof.
  split; [lia|].
  exact (swap_bytes_reverses 120 86 52 18 ltac:(lia) ltac:(lia) ltac:(lia) ltac:(lia)).
Defined.

Lemma swap_bytes_involutive_witness :
  0 ≤ 305419896 < 2 ^ 32 ∧ swap_bytes (swap_bytes 305419896) = 305419896.
Proof.
  split; [lia|]. exact (swap_bytes_involutive 305419896 ltac:(lia)).
Defined.

Lemma image_array_witness :
  (0 ≤ 3 ∧ 0 ≤ 2 ∧ 3 * 2 < 2 ^ 32 ∧ 0 ≤ 1 < 2 ∧ 0 ≤ 2 < 3)
  ∧ Image.get (Image.new 3 2 (λ n, mkPixel (Z.of_nat n) 0 0 0)) 1 2
    = Some (mkPixel 5 0 0 0)
  ∧ ∃ img', Image.set (Image.new 3 2 (λ n, mkPixel (Z.of_nat n) 0 0 0)) 1 2
              (mkPixel 1 2 3 4) = Some img'
      ∧ Image.get img' 1 2 = Some (mkPixel 1 2 3 4)
      ∧ (∀ row' col', 0 ≤ row' < 2 → 0 ≤ col' < 3 → (row', col') ≠ (1, 2) →
           Image.get img' row' col'
           = Image.get (Image.new 3 2 (λ n, mkPixel (Z.of_nat n) 0 0 0)) row' col')
      ∧ Image.get_width img' = 3
      ∧ Image.get_height img' = 2.
Proof.
  split; [lia|].
  exact (image_array 3 2 (λ n, mkPixel (Z.of_nat n) 0 0 0) 1 2 (mkPixel 1 2 3 4)
           ltac:(lia) ltac:(lia) ltac:(lia) ltac:(lia) ltac:(lia)).
Defined.

Lemma rgba_chunk_witness :
  wf_state (sample_state (mkPixel 0 0 0 0) (mkPixel 9 8 7 255)
              [xff; x01; x02; x03; x04; x55] (blank 2 2))
  ∧ in_bounds (blank 2 2) 1 0
  ∧ ∃ st', loop_body zero_bytes zero_bytes 1 0
             (sample_state (mkPixel 0 0 0 0) (mkPixel 9 8 7 255)
                [xff; x01; x02; x03; x04; x55] (blank 2 2)) = Ok st'
      ∧ last_pix st' = mkPixel 1 2 3 4
      ∧ Image.get (decoded st') 1 0 = Some (mkPixel 1 2 3 4)
      ∧ memory st'
        = <[Z.to_nat (qoi_pix_hash (mkPixel 1 2 3 4)) := mkPixel 1 2 3 4]>
            (<[5%nat := mkPixel 0 0 0 0]> (replicate 64 (mkPixel 0 0 0 0)))
      ∧ memory st' !! Z.to_nat (qoi_pix_hash (mkPixel 1 2 3 4))
        = Some (mkPixel 1 2 3 4)
      ∧ run_length st' = 0
      ∧ input st' = [x55].
Proof.
  assert (Hst : wf_state (sample_state (mkPixel 0 0 0 0) (mkPixel 9 8 7 255)
                            [xff; x01; x02; x03; x04; x55] (blank 2 2))).
  { apply wf_sample_state; apply wf_pixel_sample; lia. }
  assert (Hb : in_bounds (blank 2 2) 1 0) by (apply in_bounds_blank; lia).
  split; [exact Hst|]. split; [exact Hb|].
  exact (rgba_chunk zero_bytes zero_bytes 1 0 _ x01 x02 x03 x04 [x55]
           Hst eq_refl eq_refl Hb).
Defined.

Lemma index_emits_latest_witness :
  fits (header 2 1) (blank 2 1)
  ∧ positions (header 2 1) = [(0, 0)] ++ (0, 1) :: []
  ∧ run_cells zero_bytes zero_bytes [(0, 0)]
      (initial [xfe; x01; x02; x03; x17; x00] (blank 2 1))
    = Ok (mkState (<[23%nat := mkPixel 1 2 3 255]> (replicate 64 (mkPixel 0 0 0 0)))
            (mkPixel 1 2 3 255) 0 [x17; x00]
            (Image.mk [mkPixel 1 2 3 255; mkPixel 0 0 0 0] 2 1))
  ∧ Z.land (Z.shiftr (byte_val x17) 6) 3 = 0
  ∧ ∃ st, loop_body zero_bytes zero_bytes 0 1
            (mkState (<[23%nat := mkPixel 1 2 3 255]> (replicate 64 (mkPixel 0 0 0 0)))
               (mkPixel 1 2 3 255) 0 [x17; x00]
               (Image.mk [mkPixel 1 2 3 255; mkPixel 0 0 0 0] 2 1)) = Ok st
      ∧ last_pix st
        = latest (history zero_bytes zero_bytes [(0, 0)]
                    (initial [xfe; x01; x02; x03; x17; x00] (blank 2 1)))
                 (Z.to_nat (Z.land (byte_val x17) 63))
      ∧ Image.get (decoded st) 0 1 = Some (last_pix st).
Proof.
  assert (Hf : fits (header 2 1) (blank 2 1)) by (apply fits_blank; lia).
  split; [exact Hf|]. split; [reflexivity|]. split; [reflexivity|].
  split; [reflexivity|].
  exact (index_emits_latest zero_bytes zero_bytes (header 2 1)
           [xfe; x01; x02; x03; x17; x00] (blank 2 1) [(0, 0)] [] 0 1 _ x17 [x00]
           Hf eq_refl eq_refl eq_refl eq_refl eq_refl).
Defined.

Lemma grid_keeps_pixels_witness :
  fits (header 2 1) (blank 2 1)
  ∧ positions (header 2 1) = [] ++ (0, 0) :: [(0, 1)]
  ∧ ∃ st rest img,
      run_cells zero_bytes zero_bytes ([] ++ [(0, 0)])
        (initial [xfe; x01; x02; x03; x55; x00] (blank 2 1)) = Ok st
      ∧ do_decode_image zero_bytes zero_bytes (header 2 1)
          [xfe; x01; x02; x03; x55; x00] (blank 2 1) = Ok (rest, img)
      ∧ Image.get img 0 0 = Some (last_pix st).
Proof.
  assert (Hf : fits (header 2 1) (blank 2 1)) by (apply fits_blank; lia).
  split; [exact Hf|]. split; [reflexivity|].
  exact (grid_keeps_pixels zero_bytes zero_bytes (header 2 1)
           [xfe; x01; x02; x03; x55; x00] (blank 2 1) [] [(0, 1)] 0 0 Hf eq_refl).
Defined.

Lemma decode_ignores_buffer_witness :
  fits (header 2 1) (blank 2 1)
  ∧ fits (header 2 1) (Image.new 2 1 (λ _, mkPixel 9 9 9 9))
  ∧ ∃ rest img1 img2,
      do_decode_image zero_bytes zero_bytes (header 2 1) [xfe; x01; x02; x03; x55]
        (blank 2 1) = Ok (rest, img1)
      ∧ do_decode_image zero_bytes zero_bytes (header 2 1) [xfe; x01; x02; x03; x55]
          (Image.new 2 1 (λ _, mkPixel 9 9 9 9)) = Ok (rest, img2)
      ∧ Image.a img1 = Image.a img2.
Proof.
  assert (Hf1 : fits (header 2 1) (blank 2 1)) by (apply fits_blank; lia).
  assert (Hf2 : fits (header 2 1) (Image.new 2 1 (λ _, mkPixel 9 9 9 9))).
  { apply (fits_new (λ _, mkPixel 9 9 9 9) (header 2 1)); simpl; lia. }
  split; [exact Hf1|]. split; [exact Hf2|].
  exact (decode_ignores_buffer zero_bytes zero_bytes (header 2 1)
           [xfe; x01; x02; x03; x55] _ _ Hf1 Hf2).
Defined.

Lemma decode_overflows_buffer_witness :
  (0 ≤ width (header 65536 65536) < 2 ^ 32
   ∧ 0 ≤ height (header 65536 65536) < 2 ^ 32
   ∧ 2 ^ 32 ≤ width (header 65536 65536) * height (header 65536 65536))
  ∧ (length (Image.a (Image.new (width (header 65536 65536))
                        (height (header 65536 65536)) (λ _, mkPixel 0 0 0 0)))
     < Z.to_nat (width (header 65536 65536) * height (header 65536 65536)))%nat
  ∧ do_decode_image zero_bytes zero_bytes (header 65536 65536) [xfd]
      (Image.new (width (header 65536 65536)) (height (header 65536 65536))
         (λ _, mkPixel 0 0 0 0))
    = Undefined.
Proof.
  assert (Hw : 0 ≤ width (header 65536 65536) < 2 ^ 32) by (simpl; lia).
  assert (Hh : 0 ≤ height (header 65536 65536) < 2 ^ 32) by (simpl; lia).
  assert (Hov : 2 ^ 32 ≤ width (header 65536 65536) * height (header 65536 65536))
    by (simpl; lia).
  split; [by split_and!|].
  exact (decode_overflows_buffer zero_bytes zero_bytes (header 65536 65536) [xfd]
           (λ _, mkPixel 0 0 0 0) Hw Hh Hov).
Defined.

Lemma decode_empty_grid_witness :
  (width (header 0 3) ≤ 0 ∨ height (header 0 3) ≤ 0)
  ∧ do_decode_image zero_bytes zero_bytes (header 0 3) [xfe; x01] (blank 0 3)
    = Ok ([xfe; x01], blank 0 3).
Proof.
  assert (Hz : width (header 0 3) ≤ 0 ∨ height (header 0 3) ≤ 0) by (left; simpl; lia).
  split; [exact Hz|].
  exact (decode_empty_grid zero_bytes zero_bytes (header 0 3) [xfe; x01] (blank 0 3) Hz).
Defined.

Lemma decode_consumes_prefix_witness :
  fits (header 2 1) (blank 2 1)
  ∧ ∃ consumed rest img,
      do_decode_image zero_bytes zero_bytes (header 2 1)
        [xfe; x01; x02; x03; x55; x00; x01] (blank 2 1) = Ok (rest, img)
      ∧ [xfe; x01; x02; x03; x55; x00; x01] = consumed ++ rest
      ∧ Z.of_nat (length consumed) ≤ 5 * (width (header 2 1) * height (header 2 1)).
Proof.
  assert (Hf : fits (header 2 1) (blank 2 1)) by (apply fits_blank; lia).
  split; [exact Hf|].
  exact (decode_consumes_prefix zero_bytes zero_bytes (header 2 1)
           [xfe; x01; x02; x03; x55; x00; x01] (blank 2 1) Hf).
Defined.

Lemma decode_ignores_uninit_witness :
  fits (header 2 1) (blank 2 1)
  ∧ ∃ rest img,
      do_decode_image zero_bytes zero_bytes (header 2 1)
        [xfe; x01; x02; x03; x55; x00; x01] (blank 2 1) = Ok (rest, img)
      ∧ (rest ≠ [] →
         do_decode_image (λ _ _, xff) (λ _ _, x80) (header 2 1)
           [xfe; x01; x02; x03; x55; x00; x01] (blank 2 1) = Ok (rest, img)).
Proof.
  assert (Hf : fits (header 2 1) (blank 2 1)) by (apply fits_blank; lia).
  split; [exact Hf|].
  exact (decode_ignores_uninit zero_bytes zero_bytes (λ _ _, xff) (λ _ _, x80)
           (header 2 1) [xfe; x01; x02; x03; x55; x00; x01] (blank 2 1) Hf).
Defined.

Lemma header_is_big_endian_witness :
  length (text "qoif") = 4%nat
  ∧ read_header (header 7 7)
      (text "qoif" ++ [x00; x00; x01; x02; x00; x00; x00; x03; x04; x00] ++ [xfe])
    = (mkQoiHeader (text "qoif") (big_endian x00 x00 x01 x02)
         (big_endian x00 x00 x00 x03) (byte_val x04) (byte_val x00), [xfe])
  ∧ 0 ≤ big_endian x00 x00 x01 x02 < 2 ^ 32
  ∧ 0 ≤ big_endian x00 x00 x00 x03 < 2 ^ 32.
Proof.
  split; [reflexivity|].
  exact (header_is_big_endian (header 7 7) (text "qoif")
           x00 x00 x01 x02 x00 x00 x00 x03 x04 x00 [xfe] eq_refl).
Defined.


Lemma main_rejects_bad_magic_witness :
  last [text "qoi"; text "-f"; text "notes.txt"] = Some (text "notes.txt")
  ∧ take 2 (text "-f" ++ [x00]) = text "-f"
  ∧ sample_open (text "notes.txt") = Some (x68 :: x65 :: x6c :: x6c :: [x6f])
  ∧ [x68; x65; x6c; x6c] ≠ text "qoif"
  ∧ main zero_bytes zero_bytes true sample_open (header 7 7)
      (λ _, mkPixel 0 0 0 0) (λ _, true) [text "qoi"; text "-f"; text "notes.txt"]
    = Finished (mkProcess (-1) [] (text "Bad qoi header (incorrect magic)!" ++ endl)).
Proof.
  assert (Hbad : [x68; x65; x6c; x6c] ≠ text "qoif") by discriminate.
  split; [reflexivity|]. split; [reflexivity|]. split; [reflexivity|].
  split; [exact Hbad|].
  exact (main_rejects_bad_magic zero_bytes zero_bytes true sample_open (header 7 7)
           (λ _, mkPixel 0 0 0 0) (λ _, true) (text "qoi") (text "-f")
           [text "notes.txt"]
           (text "notes.txt") x68 x65 x6c x6c [x6f]
           eq_refl (or_intror eq_refl) eq_refl Hbad).
Defined.
